(** * The step contract of promptable: [steps/Step.ts]

    A shallow embedding of the abstract class [Step] and the properties
    of its invocation lifecycle (record, preprocess, delegate, remap,
    patch, merge), of its call ledger and of its serialization.

    Modelling choices, fixed here once:
    - a JavaScript record ([StepInput], [StepOutput], a call record) is
      the list of its own enumerable properties in property order, the
      order [Object.entries] and the spread syntax enumerate them in;
      a record, like the output map, is a plain object, whose
      prototype is [Object.prototype];
    - [outputMap] is only ever read by key, so it is the finite map of
      its own properties, and a read of it falls back on what
      [Object.prototype] holds under that key; the object the remapping
      builds is assigned to, and an assignment to [__proto__] reaches
      the setter it inherits;
    - the receiver's fields, the logger's trace and whatever the concrete
      step touches are threaded through a state-and-exception monad; the
      settlement of the promise [run] returns is the completion of the
      method, and one invocation runs at a time;
    - the two abstract members [_run] and [_serialize] are an interface
      that a concrete step implements. *)

From stdpp Require Import base option list gmap strings fin_maps.
From Stdlib Require Import ZArith NArith Ascii String Lia.

Local Open Scope string_scope.
Local Open Scope list_scope.
Set Warnings "-register-all,-clear-no-such-hyp".

(** ** JavaScript values and records *)

(** The values a record field may hold ([any]).  Numbers are kept to the
    integers: no claim depends on arithmetic. *)
Inductive value : Type :=
  | VUndefined
  | VNull
  | VBool (b : bool)
  | VNum (n : Z)
  | VStr (s : string)
  | VObj (props : list (string * value)).

(** A record: own enumerable string-keyed properties, in property order. *)
Abbreviation obj := (list (string * value)).

Module Obj.

(** [keys o] is [Object.keys(o)]. *)
Definition keys (o : obj) : list string := o.*1.

(** A list of properties denotes an object when no key occurs twice. *)
Definition wf (o : obj) : Prop := NoDup (keys o).

(** [get k o] is [o[k]] on own properties; [None] stands for a missing
    property. *)
Fixpoint get (k : string) (o : obj) : option value :=
  match o with
  | [] => None
  | (k', v) :: o' => if String.eqb k k' then Some v else get k o'
  end.

(** [Object.hasOwn(o, k)]. *)
Definition has (k : string) (o : obj) : bool :=
  match get k o with Some _ => true | None => false end.

(** The property read by the last entry named [k] of a list of
    entries: what a sequence of writes leaves under [k]. *)
Definition get_last (k : string) (o : obj) : option value := get k (reverse o).

(** *** Array-index keys

    Property order puts the keys that are array indices first, in
    ascending numeric order, and then the other string keys in the
    order they were created.  An array index is the canonical decimal
    spelling of an integer below [2^32 - 1]. *)
Definition digit (c : ascii) : option N :=
  let n := N_of_ascii c in
  if ((48 <=? n) && (n <=? 57))%N then Some (n - 48)%N else None.

Fixpoint digits (s : string) (acc : N) : option N :=
  match s with
  | EmptyString => Some acc
  | String c s' =>
      match digit c with
      | Some d => digits s' (10 * acc + d)%N
      | None => None
      end
  end.

Definition array_index (s : string) : option N :=
  match s with
  | EmptyString => None
  | String c s' =>
      if (Ascii.eqb c "0" && negb (String.eqb s' ""))%bool then None
      else match digits s 0 with
           | Some n => if (n <? 4294967295)%N then Some n else None
           | None => None
           end
  end.

(** Overwrite the value of the existing property [k], in place. *)
Fixpoint replace (k : string) (v : value) (o : obj) : obj :=
  match o with
  | [] => []
  | (k', v') :: o' =>
      if String.eqb k k' then (k, v) :: o' else (k', v') :: replace k v o'
  end.

(** Create the array-index property [k] (of index [n]) at its place
    among the array-index properties. *)
Fixpoint insert_index (n : N) (k : string) (v : value) (o : obj) : obj :=
  match o with
  | [] => [(k, v)]
  | (k', v') :: o' =>
      match array_index k' with
      | Some n' =>
          if (n' <? n)%N then (k', v') :: insert_index n k v o'
          else (k, v) :: o
      | None => (k, v) :: o
      end
  end.

(** Create the property [k], which [o] does not have. *)
Definition create (k : string) (v : value) (o : obj) : obj :=
  match array_index k with
  | Some n => insert_index n k v o
  | None => o ++ [(k, v)]
  end.

(** [set k v o] is the object after [o[k] = v]. *)
Definition set (k : string) (v : value) (o : obj) : obj :=
  if has k o then replace k v o else create k v o.

(** [spread target src] copies the properties of [src] onto [target]
    in property order: [{ ...target, ...src }] for a fresh object
    holding [target]'s properties. *)
Definition spread (target src : obj) : obj :=
  fold_left (fun acc kv => set kv.1 kv.2 acc) src target.

(** Spreading [undefined] copies nothing. *)
Definition spread_opt (target : obj) (src : option obj) : obj :=
  match src with
  | Some o => spread target o
  | None => target
  end.

(** An object literal [{ k1: v1, ..., kn: vn }]. *)
Definition literal (props : obj) : obj := spread [] props.

End Obj.

(** ** Arrays *)

Module Arr.

(** [a[i]] for an integer [i]; [None] stands for [undefined], which is
    what an index outside [0 .. length - 1] reads. *)
Definition get {A : Type} (a : list A) (i : Z) : option A :=
  if (i <? 0)%Z then None else a !! Z.to_nat i.

(** [a.length]. *)
Definition length {A : Type} (a : list A) : Z := Z.of_nat (List.length a).

(** [a.push(x)]. *)
Definition push {A : Type} (a : list A) (x : A) : list A := a ++ [x].

(** An array is an object, and every object is truthy: [!a] is [false]
    for the empty array too. *)
Definition truthy {A : Type} (a : list A) : bool := true.

End Arr.

(** ** Exceptions, schemas, arguments *)

(** What a [throw] carries: an [Error] built with a message, or whatever
    value foreign code throws. *)
Inductive exn : Type :=
  | Error (message : string)
  | Thrown (payload : value).

(** How a call ends. *)
Inductive completion (A : Type) : Type :=
  | Return (a : A)
  | Throw (e : exn).
Arguments Return {A} a.
Arguments Throw {A} e.

(** [z.Schema]: the capability [parse], which returns the validated value
    or throws. *)
Record Schema : Type := { parse : value -> completion value }.

(** A reference to a sibling step; [run] hands them on untouched. *)
Definition ref : Type := nat.

Module RunStepArgs.
Record t : Type := mk { steps : list ref; inputs : obj }.
End RunStepArgs.
Abbreviation RunStepArgs := RunStepArgs.t.

(** ** The step object *)

(** The fields of a [Step] instance. *)
Record Step : Type := {
  name : string;
  outputMap : option (gmap string string);
  inputsSchema : option Schema;
  outputsSchema : option Schema;
  calls : list obj
}.

(** What the logger is sent: the level and template of each message of
    [Step.ts], with the interpolated data kept as data. *)
Inductive LogEntry : Type :=
  | info_running_step (step_name : string) (args : RunStepArgs)
  | debug_recorded_call (call : obj) (step_name : string)
  | debug_preprocessed (inputs : obj)
  | debug_postprocessed (inputs outputs : obj)
  | debug_serializing (step_name : string) (call : option obj)
  | debug_validating (candidate : value) (schema : option Schema).

(** The abstract members: the delegated computation and the
    step-specific metadata.  [World] is whatever the concrete step owns
    or reaches (its own fields, a backend); the delegated computation may
    change it and may throw.  It is given its arguments and that world:
    it does not write to the fields the base class declares, nor into
    the records it is handed.  The metadata is read off the step and the
    world. *)
Class Concrete (World : Type) : Type := {
  _run : RunStepArgs -> World -> completion obj * World;
  _serialize : Step -> World -> obj
}.

(** The state a method call runs in. *)
Record Machine (World : Type) : Type := {
  this : Step;
  world : World;
  log : list LogEntry
}.
Arguments this {World} _.
Arguments world {World} _.
Arguments log {World} _.

(** ** Methods as state transformers that may throw *)

Definition M (World A : Type) : Type :=
  Machine World -> completion A * Machine World.

Section Monad.

Context {World : Type}.

Definition ret {A} (a : A) : M World A := fun st => (Return a, st).

(** A throw abandons the rest and keeps the state reached so far. *)
Definition bind {A B} (m : M World A) (k : A -> M World B) : M World B :=
  fun st =>
    match m st with
    | (Return a, st') => k a st'
    | (Throw e, st') => (Throw e, st')
    end.

Definition throw {A} (e : exn) : M World A := fun st => (Throw e, st).

Definition get_this : M World Step := fun st => (Return (this st), st).

Definition put_this (s : Step) : M World unit :=
  fun st => (Return tt, {| this := s; world := world st; log := log st |}).

Definition logger (entry : LogEntry) : M World unit :=
  fun st =>
    (Return tt,
     {| this := this st; world := world st; log := log st ++ [entry] |}).

End Monad.

#[global] Instance M_ret {World} : MRet (M World) := @ret World.
#[global] Instance M_bind {World} : MBind (M World) :=
  fun A B k m => bind m k.

(** Field assignments [this.f = x]. *)
Definition set_inputsSchema (x : option Schema) (s : Step) : Step :=
  {| name := name s; outputMap := outputMap s; inputsSchema := x;
     outputsSchema := outputsSchema s; calls := calls s |}.

Definition set_outputsSchema (x : option Schema) (s : Step) : Step :=
  {| name := name s; outputMap := outputMap s; inputsSchema := inputsSchema s;
     outputsSchema := x; calls := calls s |}.

Definition set_calls (x : list obj) (s : Step) : Step :=
  {| name := name s; outputMap := outputMap s; inputsSchema := inputsSchema s;
     outputsSchema := outputsSchema s; calls := x |}.

(** A string is truthy unless it is empty. *)
Definition truthy_string (s : string) : bool := negb (String.eqb s "").

(** ** Plain objects under reads and assignments

    [o[key]] and [o[key] = value] on an object created by a literal go
    through [Object.prototype]: a read of a key the object does not own
    finds the member of that name, and an assignment to [__proto__]
    reaches the inherited setter. *)

Module Plain.

(** What [Object.prototype] holds under a name: a built-in function, or
    the accessor [__proto__]. *)
Inductive member : Type :=
  | Builtin (function_name : string)
  | Accessor.

(** The methods of [Object.prototype], each a function of its own
    name. *)
Definition methods : list string :=
  ["__defineGetter__"; "__defineSetter__"; "hasOwnProperty";
   "__lookupGetter__"; "__lookupSetter__"; "isPrototypeOf";
   "propertyIsEnumerable"; "toString"; "valueOf"; "toLocaleString"].

(** The member of [Object.prototype] named [key]; [constructor] is the
    function [Object]. *)
Definition inherited (key : string) : option member :=
  if String.eqb key "constructor" then Some (Builtin "Object")
  else if String.eqb key "__proto__" then Some Accessor
  else if existsb (String.eqb key) methods then Some (Builtin key)
  else None.

(** What a read [o[key]] gives, for an object whose own properties are
    strings. *)
Inductive looked_up : Type :=
  | Own (s : string)
  | Member (mb : member)
  | Missing.

(** [o[key]]: the own property, else the inherited member, else
    [undefined]. *)
Definition read (o : gmap string string) (key : string) : looked_up :=
  match o !! key with
  | Some s => Own s
  | None =>
      match inherited key with
      | Some mb => Member mb
      | None => Missing
      end
  end.

(** Truthiness: a string unless empty, every function and object. *)
Definition truthy (x : looked_up) : bool :=
  match x with
  | Own s => truthy_string s
  | Member _ => true
  | Missing => false
  end.

(** The property key a value stands for when used as [o[x]]: a string
    is itself; a built-in function is its source text, as Node prints
    it; the accessor [__proto__] reads as [Object.prototype], whose
    string is [[object Object]]. *)
Definition to_key (x : looked_up) : string :=
  match x with
  | Own s => s
  | Member (Builtin f) => "function " ++ f ++ "() { [native code] }"
  | Member Accessor => "[object Object]"
  | Missing => "undefined"
  end.

(** The prototype of an object being assigned to: [Object.prototype],
    as for a literal; [null]; or a plain object, given by its own
    properties. *)
Inductive prototype : Type :=
  | ObjectPrototype
  | NoPrototype
  | PrototypeObject (props : obj).

(** An object being assigned to: its own properties and its
    prototype. *)
Record t : Type := mk { own : obj; proto : prototype }.

(** [{}]. *)
Definition empty : t := mk [] ObjectPrototype.

(** What the setter of [__proto__] does with the value assigned: an
    object or [null] becomes the prototype, anything else is ignored. *)
Definition set_prototype (v : value) (o : t) : t :=
  match v with
  | VObj props => mk (own o) (PrototypeObject props)
  | VNull => mk (own o) NoPrototype
  | _ => o
  end.

(** [o[name] = value].  Every name but [__proto__] creates or
    overwrites an own property.  [__proto__] overwrites an own property
    of that name if there is one; else the chain decides: a prototype
    object that owns a property [__proto__], or no prototype at all,
    makes the assignment create the own property, and otherwise the
    setter of [Object.prototype] is reached. *)
Definition assign (name : string) (v : value) (o : t) : t :=
  if (String.eqb name "__proto__" && negb (Obj.has "__proto__" (own o)))%bool
  then
    match proto o with
    | ObjectPrototype => set_prototype v o
    | NoPrototype => mk (Obj.set name v (own o)) (proto o)
    | PrototypeObject props =>
        if Obj.has "__proto__" props
        then mk (Obj.set name v (own o)) (proto o)
        else set_prototype v o
    end
  else mk (Obj.set name v (own o)) (proto o).

End Plain.

(** ** The class [Step] *)

Module Step.
Section Methods.

Context {World : Type} `{!Concrete World}.

Local Abbreviation M := (M World).

(** [constructor(name, outputMap?)]; the field initialiser leaves
    [calls] empty and both schemas unset. *)
Definition constructor (name : string)
    (outputMap : option (gmap string string)) : Step :=
  {| name := name; outputMap := outputMap; inputsSchema := None;
     outputsSchema := None; calls := [] |}.

(** [inputs(schema)]: store the schema, return [this]. *)
Definition inputs (schema : Schema) : M Step :=
  this ← get_this;
  put_this (set_inputsSchema (Some schema) this);;
  get_this.

(** [outputs(schema)]: store the schema, return [this]. *)
Definition outputs (schema : Schema) : M Step :=
  this ← get_this;
  put_this (set_outputsSchema (Some schema) this);;
  get_this.

(** [recordCall(args, updatePrev = false)]. The assignment to
    [calls[calls.length - 1]] is reached only past the guard on the
    length, where the index is in range. *)
Definition recordCall (args : obj) (updatePrev : bool) : M unit :=
  this ← get_this;
  if updatePrev then
    if (Arr.length (calls this) =? 0)%Z then
      throw (Error "Cannot update last call, calls length is 0")
    else
      let prev := Arr.get (calls this) (Arr.length (calls this) - 1) in
      let call := Obj.spread (Obj.spread_opt [] prev) args in
      put_this
        (set_calls
           (<[Z.to_nat (Arr.length (calls this) - 1) := call]> (calls this))
           this);;
      logger (debug_recorded_call call (name this))
  else
    put_this (set_calls (Arr.push (calls this) (Obj.spread [] args)) this);;
    logger (debug_recorded_call (Obj.spread [] args) (name this)).

(** [preprocess(inputs)]: the validation is commented out; the inputs
    come back as they are. *)
Definition preprocess (inputs : obj) : M obj :=
  logger (debug_preprocessed inputs);;
  mret inputs.

(** [postprocess(inputs, outputs)]: the validation is commented out;
    the result is [{ ...inputs, ...outputs }]. *)
Definition postprocess (inputs outputs : obj) : M obj :=
  logger (debug_postprocessed inputs outputs);;
  mret (Obj.spread (Obj.spread [] inputs) outputs).

(** [await this._run(args)]. *)
Definition await_run (args : RunStepArgs) : M obj :=
  fun st =>
    let (c, w) := _run args (world st) in
    (c, {| this := this st; world := w; log := log st |}).

(** [mapOutputs(outputs)]. It reads [this] and writes nothing.  The
    record returned is [mapped] as the rest of the class sees it: by
    its own properties. *)
Definition mapOutputs (this : Step) (outputs : obj) : obj :=
  match outputMap this with
  | None => outputs
  | Some outputMap =>
      Plain.own
        (fold_left
           (fun mapped '(key, value) =>
              if Plain.truthy (Plain.read outputMap key) then
                Plain.assign (Plain.to_key (Plain.read outputMap key))
                  value mapped
              else Plain.assign key value mapped)
           outputs Plain.empty)
  end.

(** [run(args)]. *)
Definition run (args : RunStepArgs) : M obj :=
  this ← get_this;
  logger (info_running_step (name this) args);;
  recordCall (Obj.literal [("inputs", VObj (RunStepArgs.inputs args))]) false;;
  inputs ← preprocess (RunStepArgs.inputs args);
  outputs ← await_run (RunStepArgs.mk (RunStepArgs.steps args) inputs);
  this ← get_this;
  let mappedOutputs := mapOutputs this outputs in
  recordCall (Obj.literal [("outputs", VObj mappedOutputs)]) true;;
  postprocess inputs mappedOutputs.

(** The value of an optional operand: [undefined] when it is missing. *)
Definition value_of (call : option obj) : value :=
  match call with
  | Some o => VObj o
  | None => VUndefined
  end.

(** [this._serialize()]. *)
Definition call_serialize : M obj :=
  fun st => (Return (_serialize (this st) (world st)), st).

(** [serialize()]. *)
Definition serialize : M obj :=
  this ← get_this;
  if negb (Arr.truthy (calls this)) then mret []
  else
    let call := Arr.get (calls this) (Arr.length (calls this) - 1) in
    logger (debug_serializing (name this) call);;
    metadata ← call_serialize;
    mret (Obj.spread (Obj.literal [("call", value_of call)]) metadata).

(** The completion of a call into foreign code, taken as it is. *)
Definition lift_completion {A} (c : completion A) : M A :=
  fun st => (c, st).

(** [validateInputs(inputs?)]: [this.inputsSchema?.parse(inputs)].
    No method calls it. *)
Definition validateInputs (inputs : value) : M value :=
  this ← get_this;
  logger (debug_validating inputs (inputsSchema this));;
  match inputsSchema this with
  | Some schema => lift_completion (parse schema inputs)
  | None => mret VUndefined
  end.

(** [validateOutputs(outputs?)]: [this.outputsSchema?.parse(outputs)];
    its trace names the inputs schema, as in the source.  No method
    calls it. *)
Definition validateOutputs (outputs : value) : M value :=
  this ← get_this;
  logger (debug_validating outputs (inputsSchema this));;
  match outputsSchema this with
  | Some schema => lift_completion (parse schema outputs)
  | None => mret VUndefined
  end.

End Methods.
End Step.

(** ** The remapping as the specification words it

    Kept apart from [Step.mapOutputs], which is read off the source, to
    be compared with it. *)

Module Reference.

(** The name a key is written under: the target the output map
    declares for it, or else the key itself. *)
Definition declared_target (outputMap : gmap string string)
    (key : string) : string :=
  default key (outputMap !! key).

Definition mapOutputs (outputMap : option (gmap string string))
    (outputs : obj) : obj :=
  match outputMap with
  | None => outputs
  | Some m =>
      fold_left
        (fun mapped kv => Obj.set (declared_target m kv.1) kv.2 mapped)
        outputs []
  end.

(** The declarations with a non-empty target name. *)
Definition named (outputMap : gmap string string) : gmap string string :=
  filter (fun kv => kv.2 <> "") outputMap.

End Reference.

(** The name to which the loop of [Step.mapOutputs] assigns the value
    of [key], given the declared map. *)
Definition written_under (m : gmap string string) (key : string) : string :=
  if Plain.truthy (Plain.read m key) then Plain.to_key (Plain.read m key)
  else key.

(** The outputs have ordinary names for the map [m]: a key the map has
    no declaration of its own for is not the name of a member of
    [Object.prototype], and no value is assigned to [__proto__]. *)
Definition ordinary_names (m : gmap string string) (outputs : obj) : Prop :=
  forall k, k ∈ Obj.keys outputs ->
    (m !! k = None -> Plain.inherited k = None)
    /\ written_under m k <> "__proto__".

(** The assignments of the loop of [Step.mapOutputs], one per entry of
    [o], each to the name [w] gives its key. *)
Definition assign_all (w : string -> string) (o : obj) (acc : Plain.t)
    : Plain.t :=
  fold_left (fun mapped kv => Plain.assign (w kv.1) kv.2 mapped) o acc.

(** The entries of [o], each under the name [w] gives its key. *)
Definition rename (w : string -> string) (o : obj) : obj :=
  (fun kv => (w kv.1, kv.2)) <$> o.

(** ** Invocations in sequence *)

Section Sequences.

Context {World : Type} `{!Concrete World}.

(** One [await step.run(args)] after the other; the first throw ends
    the sequence. *)
Fixpoint run_seq (l : list RunStepArgs) : M World (list obj) :=
  match l with
  | [] => mret []
  | args :: l' =>
      result ← Step.run args;
      results ← run_seq l';
      mret (result :: results)
  end.

(** How the delegated computation completes on each invocation of
    such a sequence, were none of them cut short. *)
Fixpoint delegated (l : list RunStepArgs) (w : World)
    : list (completion obj) :=
  match l with
  | [] => []
  | args :: l' =>
      let (c, w') :=
        _run (RunStepArgs.mk (RunStepArgs.steps args)
                (RunStepArgs.inputs args)) w in
      c :: delegated l' w'
  end.

End Sequences.

(** The call record of a completed invocation. *)
Definition completed_call (inputs outputs : obj) : obj :=
  [("inputs", VObj inputs); ("outputs", VObj outputs)].

(** The call record of an invocation that has not produced outputs. *)
Definition pending_call (inputs : obj) : obj := [("inputs", VObj inputs)].

(** The records a sequence of completed invocations leaves. *)
Definition completed_calls (this : Step) (l : list RunStepArgs)
    (outs : list obj) : list obj :=
  zip_with
    (fun args out =>
       completed_call (RunStepArgs.inputs args) (Step.mapOutputs this out))
    l outs.

(** A step with the schemas [i] and [o] in place of its own. *)
Definition with_schemas (i o : option Schema) (s : Step) : Step :=
  set_inputsSchema i (set_outputsSchema o s).

(** The machine, with the schemas [i] and [o] attached to its step. *)
Definition attach {World : Type} (i o : option Schema) (st : Machine World)
    : Machine World :=
  {| this := with_schemas i o (this st); world := world st; log := log st |}.

(** The error of an update without a call to update. *)
Definition cannot_update : exn :=
  Error "Cannot update last call, calls length is 0".

(** ** The two ways [run] ends *)

Section Outcomes.

Context {World : Type}.

(** The machine [run] leaves behind when the delegated computation
    returns [outputs] and leaves the world at [w]. *)
Definition after_return (st : Machine World) (args : RunStepArgs)
    (outputs : obj) (w : World) : Machine World :=
  let inputs := RunStepArgs.inputs args in
  let mapped := Step.mapOutputs (this st) outputs in
  {| this :=
       set_calls (calls (this st) ++ [completed_call inputs mapped]) (this st);
     world := w;
     log := log st ++
            [info_running_step (name (this st)) args;
             debug_recorded_call (pending_call inputs) (name (this st));
             debug_preprocessed inputs;
             debug_recorded_call (completed_call inputs mapped)
               (name (this st));
             debug_postprocessed inputs mapped] |}.

(** The machine [run] leaves behind when the delegated computation
    throws and leaves the world at [w]. *)
Definition after_throw (st : Machine World) (args : RunStepArgs)
    (w : World) : Machine World :=
  let inputs := RunStepArgs.inputs args in
  {| this := set_calls (calls (this st) ++ [pending_call inputs]) (this st);
     world := w;
     log := log st ++
            [info_running_step (name (this st)) args;
             debug_recorded_call (pending_call inputs) (name (this st));
             debug_preprocessed inputs] |}.

End Outcomes.

(** ** A concrete step

    The step of the scenarios: it greets whoever [name] names, and fails
    when the inputs give no name. *)

Definition greet_run (args : RunStepArgs) (w : unit)
    : completion obj * unit :=
  match Obj.get "name" (RunStepArgs.inputs args) with
  | Some (VStr n) => (Return [("greeting", VStr ("Hello, " ++ n))], w)
  | _ => (Throw (Error "name is required"), w)
  end.

#[global] Instance Greet : Concrete unit := {
  _run := greet_run;
  _serialize := fun this _ => [("type", VStr "greet"); ("name", VStr (name this))]
}.

Definition start (s : Step) : Machine unit :=
  {| this := s; world := tt; log := [] |}.

Definition ada : RunStepArgs :=
  RunStepArgs.mk [] [("name", VStr "Ada")].

Definition nobody : RunStepArgs := RunStepArgs.mk [] [].

Definition greet : Step := Step.constructor "greet" None.

Definition greet_message : Step :=
  Step.constructor "greet" (Some {[ "greeting" := "message" ]}).

(** ** Vocabulary of the further properties *)

(** The name [Step.mapOutputs] writes the value of [key] under, for the
    step [this]. *)
Definition target_of (this : Step) (key : string) : string :=
  match outputMap this with
  | Some m => written_under m key
  | None => key
  end.

(** No value of the outputs is assigned to [__proto__]. *)
Definition no_proto_write (this : Step) (outputs : obj) : Prop :=
  match outputMap this with
  | Some m =>
      forall k, k ∈ Obj.keys outputs -> written_under m k <> "__proto__"
  | None => True
  end.

(** Steps alike in all but their call history. *)
Definition same_config (s s' : Step) : Prop :=
  name s = name s' /\ outputMap s = outputMap s'
  /\ inputsSchema s = inputsSchema s' /\ outputsSchema s = outputsSchema s'.

(** What a sequence of completed invocations returns. *)
Definition merged_results (this : Step) (l : list RunStepArgs)
    (outs : list obj) : list obj :=
  zip_with
    (fun args out =>
       Obj.spread (Obj.spread [] (RunStepArgs.inputs args))
         (Step.mapOutputs this out))
    l outs.

(** Two records that read alike under every key. *)
Definition same_reads (o o' : obj) : Prop :=
  forall k, Obj.get k o = Obj.get k o'.

(** * Properties *)

(** ** Records *)

Example array_index_examples :
  Obj.array_index "0" = Some 0%N /\ Obj.array_index "42" = Some 42%N /\
  Obj.array_index "042" = None /\ Obj.array_index "x1" = None /\
  Obj.array_index "4294967294" = Some 4294967294%N /\
  Obj.array_index "4294967295" = None /\ Obj.array_index "" = None.
Proof. repeat split; vm_compute; reflexivity. Qed.

Example set_property_order :
  Obj.set "1" (VNum 1) (Obj.set "b" (VNum 2) (Obj.set "10" (VNum 3)
    (Obj.set "a" (VNum 4) (Obj.set "b" (VNum 5) []))))
  = [("1", VNum 1); ("10", VNum 3); ("b", VNum 2); ("a", VNum 4)].
Proof. reflexivity. Qed.

(** *** Reading after writing *)

Section ObjFacts.

Implicit Types (k : string) (v : value) (o : obj).

Lemma eqb_decide k k' : String.eqb k k' = bool_decide (k = k').
Proof.
  destruct (String.eqb_spec k k'); symmetry;
    [by apply bool_decide_eq_true | by apply bool_decide_eq_false].
Qed.

Lemma get_cons k k' v o :
  Obj.get k ((k', v) :: o) = if decide (k = k') then Some v else Obj.get k o.
Proof. simpl. rewrite eqb_decide. by case_bool_decide; case_decide. Qed.

Lemma get_app k o1 o2 :
  Obj.get k (o1 ++ o2) =
  match Obj.get k o1 with Some v => Some v | None => Obj.get k o2 end.
Proof.
  induction o1 as [|[k' v'] o1 IH]; [done|].
  rewrite <- app_comm_cons, !get_cons. by case_decide.
Qed.

Lemma get_None_keys k o : Obj.get k o = None <-> k ∉ Obj.keys o.
Proof.
  induction o as [|[k' v'] o IH]; simpl.
  - split; [intros _; apply not_elem_of_nil | done].
  - rewrite eqb_decide, not_elem_of_cons. case_bool_decide; naive_solver.
Qed.

Lemma has_keys k o : Obj.has k o = true <-> k ∈ Obj.keys o.
Proof.
  unfold Obj.has. destruct (Obj.get k o) eqn:E.
  - split; [intros _|done].
    destruct (decide (k ∈ Obj.keys o)) as [|Hn]; [done|].
    apply get_None_keys in Hn. congruence.
  - split; [done|]. intros Hin. by apply get_None_keys in E.
Qed.

Lemma get_Some_elem k v o : Obj.wf o -> Obj.get k o = Some v <-> (k, v) ∈ o.
Proof.
  unfold Obj.wf, Obj.keys. induction o as [|[k' v'] o IH]; simpl.
  - intros _. split; [done | intros H; by apply elem_of_nil in H].
  - rewrite NoDup_cons. intros [Hk Hnd]. rewrite eqb_decide, elem_of_cons.
    case_bool_decide as E.
    + subst k'. split; [naive_solver|]. intros [?|Hin]; [naive_solver|].
      exfalso. apply Hk. apply list_elem_of_fmap. by exists (k, v).
    + rewrite IH by done. naive_solver.
Qed.

Lemma wf_reverse o : Obj.wf o -> Obj.wf (reverse o).
Proof.
  unfold Obj.wf, Obj.keys. intros H.
  by rewrite fmap_reverse, reverse_Permutation.
Qed.

(** On an object, the last entry named [k] is the only one. *)
Lemma get_last_wf k o : Obj.wf o -> Obj.get_last k o = Obj.get k o.
Proof.
  intros Hwf. unfold Obj.get_last.
  destruct (Obj.get k o) as [v|] eqn:E.
  - apply get_Some_elem; [by apply wf_reverse|].
    rewrite elem_of_reverse. by apply get_Some_elem.
  - apply get_None_keys. apply get_None_keys in E.
    unfold Obj.keys in *. by rewrite fmap_reverse, elem_of_reverse.
Qed.

Lemma keys_replace k v o : Obj.keys (Obj.replace k v o) = Obj.keys o.
Proof.
  unfold Obj.keys. induction o as [|[k' v'] o IH]; [done|]. simpl.
  destruct (String.eqb_spec k k'); rewrite !fmap_cons; simpl;
    [by subst | by f_equal].
Qed.

Lemma get_replace k k' v o :
  Obj.has k o = true ->
  Obj.get k' (Obj.replace k v o) = if decide (k = k') then Some v else Obj.get k' o.
Proof.
  unfold Obj.has. induction o as [|[k1 v1] o IH]; [done|]. simpl.
  destruct (String.eqb_spec k k1) as [->|Hne]; intros Hhas.
  - rewrite get_cons, eqb_decide.
    repeat (case_decide || case_bool_decide); naive_solver.
  - rewrite get_cons, eqb_decide, IH by done.
    repeat (case_decide || case_bool_decide); naive_solver.
Qed.

Lemma keys_insert_index n k v o :
  Obj.keys (Obj.insert_index n k v o) ≡ₚ k :: Obj.keys o.
Proof.
  unfold Obj.keys. induction o as [|[k' v'] o IH]; [done|]. simpl.
  destruct (Obj.array_index k') as [n'|]; [|done].
  destruct (n' <? n)%N; [|done]. rewrite !fmap_cons, IH. apply Permutation_swap.
Qed.

Lemma keys_create k v o : Obj.keys (Obj.create k v o) ≡ₚ k :: Obj.keys o.
Proof.
  unfold Obj.create. destruct (Obj.array_index k).
  - apply keys_insert_index.
  - unfold Obj.keys. rewrite fmap_app. simpl.
    by rewrite Permutation_app_comm.
Qed.

Lemma get_insert_index n k k' v o :
  Obj.has k o = false ->
  Obj.get k' (Obj.insert_index n k v o) =
  if decide (k = k') then Some v else Obj.get k' o.
Proof.
  unfold Obj.has. induction o as [|[k1 v1] o IH]; intros Hhas.
  - simpl. rewrite eqb_decide.
    repeat (case_decide || case_bool_decide); naive_solver.
  - simpl in Hhas. destruct (String.eqb_spec k k1) as [->|Hne]; [done|].
    cbn [Obj.insert_index]. destruct (Obj.array_index k1) as [n'|];
      [destruct (n' <? n)%N|]; rewrite !get_cons, ?IH by done;
      repeat case_decide; simplify_eq; done.
Qed.

Lemma get_create k k' v o :
  Obj.has k o = false ->
  Obj.get k' (Obj.create k v o) = if decide (k = k') then Some v else Obj.get k' o.
Proof.
  intros Hhas. unfold Obj.create. destruct (Obj.array_index k).
  - by apply get_insert_index.
  - rewrite get_app, get_cons. simpl. unfold Obj.has in Hhas.
    repeat case_decide; simplify_eq.
    + by destruct (Obj.get k' o).
    + by destruct (Obj.get k' o).
Qed.

(** [o[k] = v] then [o[k']]. *)
Lemma get_set k k' v o :
  Obj.get k' (Obj.set k v o) = if decide (k = k') then Some v else Obj.get k' o.
Proof.
  unfold Obj.set. destruct (Obj.has k o) eqn:E;
    [by apply get_replace | by apply get_create].
Qed.

Lemma wf_set k v o : Obj.wf o -> Obj.wf (Obj.set k v o).
Proof.
  unfold Obj.wf, Obj.set. intros Hwf. destruct (Obj.has k o) eqn:E.
  - by rewrite keys_replace.
  - rewrite keys_create. apply NoDup_cons. split; [|done].
    intros Hin. apply has_keys in Hin. congruence.
Qed.

Lemma wf_spread o1 o2 : Obj.wf o1 -> Obj.wf (Obj.spread o1 o2).
Proof.
  unfold Obj.spread. revert o1.
  induction o2 as [|[k v] o2 IH]; intros o1 Hwf; [done|].
  simpl. apply IH. by apply wf_set.
Qed.

Lemma wf_literal o : Obj.wf (Obj.literal o).
Proof. apply wf_spread. apply NoDup_nil_2. Qed.

(** Writes in sequence: the last write to [k] is the one read back. *)
Lemma get_spread_last k o1 o2 :
  Obj.get k (Obj.spread o1 o2) =
  match Obj.get_last k o2 with Some v => Some v | None => Obj.get k o1 end.
Proof.
  unfold Obj.spread, Obj.get_last. revert o1.
  induction o2 as [|[k1 v1] o2 IH]; intros o1; [done|].
  simpl. rewrite IH, reverse_cons, get_app, get_set, get_cons. simpl.
  destruct (Obj.get k (reverse o2)); [done|]. by repeat case_decide.
Qed.

(** The shallow merge [{ ...o1, ...o2 }], read key by key: a key of
    [o2] shadows the same key of [o1]. *)
Lemma get_spread k o1 o2 :
  Obj.wf o2 ->
  Obj.get k (Obj.spread o1 o2) =
  match Obj.get k o2 with Some v => Some v | None => Obj.get k o1 end.
Proof. intros Hwf. by rewrite get_spread_last, get_last_wf. Qed.

Lemma get_literal k o : Obj.wf o -> Obj.get k (Obj.literal o) = Obj.get k o.
Proof.
  intros Hwf. unfold Obj.literal. rewrite get_spread by done.
  by destruct (Obj.get k o).
Qed.

Lemma has_spread k o1 o2 :
  Obj.has k (Obj.spread o1 o2) = Obj.has k o1 || Obj.has k o2.
Proof.
  unfold Obj.has. rewrite get_spread_last. unfold Obj.get_last.
  destruct (Obj.get k (reverse o2)) as [v|] eqn:E.
  - assert (Obj.get k o2 <> None) as Hn.
    { rewrite get_None_keys. intros Hn. apply Hn.
      assert (Obj.get k (reverse o2) <> None) as Hr by congruence.
      rewrite get_None_keys in Hr. apply dec_stable in Hr.
      unfold Obj.keys in *.
      by rewrite fmap_reverse, elem_of_reverse in Hr. }
    destruct (Obj.get k o2); [|done]. by destruct (Obj.get k o1).
  - apply get_None_keys in E. unfold Obj.keys in E.
    rewrite fmap_reverse, elem_of_reverse in E.
    apply get_None_keys in E. rewrite E. by destruct (Obj.get k o1).
Qed.

End ObjFacts.

(** ** Arrays *)

Section ArrFacts.

Context {A : Type}.
Implicit Types (a : list A) (x y : A).

Lemma Arr_length_snoc a x :
  Arr.length (a ++ [x]) = (Z.of_nat (List.length a) + 1)%Z.
Proof. unfold Arr.length. rewrite length_app. simpl. lia. Qed.

Lemma Arr_last_index_snoc a x :
  Z.to_nat (Arr.length (a ++ [x]) - 1) = List.length a.
Proof. rewrite Arr_length_snoc. lia. Qed.

(** [a[a.length - 1]] is the element pushed last. *)
Lemma Arr_get_last_snoc a x :
  Arr.get (a ++ [x]) (Arr.length (a ++ [x]) - 1) = Some x.
Proof.
  unfold Arr.get. rewrite Arr_last_index_snoc.
  rewrite Arr_length_snoc.
  destruct (Z.ltb_spec (Z.of_nat (List.length a) + 1 - 1) 0) as [Hlt|_]; [lia|].
  by apply list_lookup_middle.
Qed.

(** [a[a.length - 1] = y] replaces the element pushed last. *)
Lemma Arr_set_last_snoc a x y :
  <[Z.to_nat (Arr.length (a ++ [x]) - 1) := y]> (a ++ [x]) = a ++ [y].
Proof.
  rewrite Arr_last_index_snoc.
  replace (List.length a) with (List.length a + 0) by lia.
  by rewrite insert_app_r.
Qed.

(** [a[a.length - 1]] on the empty array is [undefined]. *)
Lemma Arr_get_last_nil : Arr.get (@nil A) (Arr.length (@nil A) - 1) = None.
Proof. reflexivity. Qed.

End ArrFacts.

(** ** What each method does to the machine *)

Section MethodFacts.

Context {World : Type} `{!Concrete World}.
Implicit Types (st : Machine World) (args : RunStepArgs).

Lemma recordCall_append (fields : obj) st :
  Step.recordCall fields false st =
  (Return tt,
   {| this := set_calls (calls (this st) ++ [Obj.spread [] fields]) (this st);
      world := world st;
      log := log st ++
             [debug_recorded_call (Obj.spread [] fields) (name (this st))] |}).
Proof. reflexivity. Qed.

Lemma recordCall_update_nil (fields : obj) st :
  calls (this st) = [] ->
  Step.recordCall fields true st = (Throw cannot_update, st).
Proof.
  intros Hnil. unfold Step.recordCall, mbind, M_bind, bind, get_this.
  by rewrite Hnil.
Qed.

Lemma recordCall_update_snoc (fields : obj) st (h : list obj) (prev : obj) :
  calls (this st) = h ++ [prev] ->
  Step.recordCall fields true st =
  (Return tt,
   {| this :=
        set_calls (h ++ [Obj.spread (Obj.spread [] prev) fields]) (this st);
      world := world st;
      log := log st ++
             [debug_recorded_call (Obj.spread (Obj.spread [] prev) fields)
                (name (this st))] |}).
Proof.
  intros Hsnoc. unfold Step.recordCall, mbind, M_bind, bind, get_this.
  rewrite Hsnoc, Arr_get_last_snoc, Arr_set_last_snoc, Arr_length_snoc.
  destruct (Z.eqb_spec (Z.of_nat (List.length h) + 1) 0) as [Hz|_]; [lia|].
  reflexivity.
Qed.

Lemma literal_inputs (x : obj) :
  Obj.spread [] (Obj.literal [("inputs", VObj x)]) = pending_call x.
Proof. reflexivity. Qed.

Lemma patch_outputs (x y : obj) :
  Obj.spread (Obj.spread [] (pending_call x))
    (Obj.literal [("outputs", VObj y)]) = completed_call x y.
Proof. reflexivity. Qed.

(** The remapping reads [outputMap] and nothing else. *)
Lemma mapOutputs_outputMap (s s' : Step) (outputs : obj) :
  outputMap s = outputMap s' ->
  Step.mapOutputs s outputs = Step.mapOutputs s' outputs.
Proof. unfold Step.mapOutputs. by intros ->. Qed.

(** [run], in one piece. *)
Lemma run_unfold args st :
  Step.run args st =
  match _run (RunStepArgs.mk (RunStepArgs.steps args)
                (RunStepArgs.inputs args)) (world st) with
  | (Return outputs, w) =>
      (Return (Obj.spread (Obj.spread [] (RunStepArgs.inputs args))
                 (Step.mapOutputs (this st) outputs)),
       after_return st args outputs w)
  | (Throw e, w) => (Throw e, after_throw st args w)
  end.
Proof.
  unfold Step.run, Step.preprocess, Step.postprocess, Step.await_run,
    mbind, M_bind, bind, get_this, logger, mret, M_ret, ret.
  cbv beta iota. rewrite recordCall_append, literal_inputs.
  cbv beta iota. cbn [this world log].
  destruct (_run _ (world st)) as [[outputs|e] w].
  - cbv beta iota. cbn [this world log].
    erewrite recordCall_update_snoc by reflexivity.
    rewrite patch_outputs.
    rewrite (mapOutputs_outputMap _ (this st)) by reflexivity.
    unfold after_return. cbn [this world log name calls set_calls].
    rewrite <- !app_assoc. reflexivity.
  - unfold after_throw. rewrite <- !app_assoc. reflexivity.
Qed.

End MethodFacts.

(** ** Output remapping *)

Section Remapping.

Implicit Types (m : gmap string string) (o outputs : obj) (k key : string).

Lemma truthy_string_spec (s : string) : truthy_string s = true <-> s <> "".
Proof.
  unfold truthy_string. destruct (String.eqb_spec s ""); naive_solver.
Qed.

Lemma spread_rename (w : string -> string) o acc :
  fold_left (fun mapped kv => Obj.set (w kv.1) kv.2 mapped) o acc =
  Obj.spread acc (rename w o).
Proof.
  unfold Obj.spread, rename. revert acc.
  induction o as [|[k v] o IH]; intros acc; [done|].
  rewrite fmap_cons. simpl. apply IH.
Qed.

Lemma reference_writes m outputs :
  Reference.mapOutputs (Some m) outputs =
  Obj.spread [] (rename (Reference.declared_target m) outputs).
Proof. unfold Reference.mapOutputs. apply spread_rename. Qed.

(** Declaring an empty target name is declaring nothing; this for a
    key that the map declares itself or that names no member of
    [Object.prototype]. *)
Lemma declared_named m key :
  (m !! key = None -> Plain.inherited key = None) ->
  Reference.declared_target (Reference.named m) key = written_under m key.
Proof.
  intros Hplain.
  unfold Reference.declared_target, Reference.named, written_under, Plain.read.
  destruct (m !! key) as [t|] eqn:E.
  - simpl. destruct (truthy_string t) eqn:T.
    + apply truthy_string_spec in T.
      by rewrite (proj2 (map_lookup_filter_Some _ m key t)).
    + assert (t = "") as ->.
      { destruct (decide (t = "")) as [|Hn]; [done|].
        apply truthy_string_spec in Hn. congruence. }
      rewrite (proj2 (map_lookup_filter_None _ m key)); [done|].
      right. intros t' Ht'. simpl. intros Hne. congruence.
  - rewrite Hplain by done. simpl.
    rewrite (proj2 (map_lookup_filter_None _ m key)); [done|]. by left.
Qed.

Lemma rename_ext (w w' : string -> string) o :
  (forall k, k ∈ Obj.keys o -> w k = w' k) -> rename w o = rename w' o.
Proof.
  unfold rename, Obj.keys. induction o as [|[k v] o IH]; intros Hw; [done|].
  rewrite !fmap_cons. simpl. f_equal.
  - f_equal. apply Hw. rewrite fmap_cons. apply elem_of_cons. by left.
  - apply IH. intros k' Hk'. apply Hw. rewrite fmap_cons.
    apply elem_of_cons. by right.
Qed.

Lemma get_Some_in k v o : Obj.get k o = Some v -> (k, v) ∈ o.
Proof.
  induction o as [|[k' v'] o IH]; [done|]. rewrite get_cons.
  case_decide; intros Hg; simplify_eq.
  - apply elem_of_cons. by left.
  - apply elem_of_cons. right. by apply IH.
Qed.

Lemma elem_rename (w : string -> string) o key v :
  (key, v) ∈ rename w o <-> exists k, w k = key /\ (k, v) ∈ o.
Proof.
  unfold rename. rewrite list_elem_of_fmap. split.
  - intros [[k v'] [Heq Hin]]. simpl in Heq. simplify_eq. by exists k.
  - intros [k [Heq Hin]]. exists (k, v). by subst.
Qed.

Lemma keys_in k v o : (k, v) ∈ o -> k ∈ Obj.keys o.
Proof.
  intros Hin. unfold Obj.keys. apply list_elem_of_fmap. by exists (k, v).
Qed.

Lemma in_keys k o : k ∈ Obj.keys o -> exists v, (k, v) ∈ o.
Proof.
  unfold Obj.keys. rewrite list_elem_of_fmap.
  intros [[k' v] [-> Hin]]. by exists v.
Qed.

(** When [k0] is the only key of [o] written under its name, that
    name reads what [k0] held. *)
Lemma get_rename_unique (w : string -> string) o k0 :
  Obj.wf o ->
  (forall k, k ∈ Obj.keys o -> w k = w k0 -> k = k0) ->
  Obj.get_last (w k0) (rename w o) = Obj.get k0 o.
Proof.
  intros Hwf Huniq. unfold Obj.get_last.
  destruct (Obj.get (w k0) (reverse (rename w o))) as [v|] eqn:E.
  - apply get_Some_in in E. rewrite elem_of_reverse in E.
    apply elem_rename in E as [k [Hk Hin]].
    assert (k = k0) as -> by (apply Huniq; [by eapply keys_in|done]).
    symmetry. by apply get_Some_elem.
  - destruct (Obj.get k0 o) as [v|] eqn:G; [|done].
    apply get_Some_elem in G; [|done].
    apply get_None_keys in E. exfalso. apply E.
    apply (keys_in _ v). rewrite elem_of_reverse. apply elem_rename. eauto.
Qed.

(** A name under which no key of [o] is written reads nothing. *)
Lemma get_rename_none (w : string -> string) o key :
  (forall k, k ∈ Obj.keys o -> w k <> key) ->
  Obj.get_last key (rename w o) = None.
Proof.
  intros Hno. unfold Obj.get_last. apply get_None_keys. intros Hin.
  apply in_keys in Hin as [v Hin]. rewrite elem_of_reverse in Hin.
  apply elem_rename in Hin as [k [Hk Hin]].
  by apply (Hno k); [eapply keys_in|].
Qed.

(** Last write wins: the entry written under [x] after which no entry
    is written under [x] is the one read back. *)
Lemma get_rename_last (w : string -> string) o1 o2 k v :
  (forall k', k' ∈ Obj.keys o2 -> w k' <> w k) ->
  Obj.get_last (w k) (rename w (o1 ++ (k, v) :: o2)) = Some v.
Proof.
  intros Hno. unfold Obj.get_last, rename.
  rewrite fmap_app, fmap_cons, reverse_app, reverse_cons, <- app_assoc.
  rewrite get_app. fold (rename w o2).
  fold (Obj.get_last (w k) (rename w o2)).
  rewrite get_rename_none by done. simpl. by rewrite String.eqb_refl.
Qed.

Lemma written_under_singleton (a x k : string) :
  x <> "" ->
  k = a \/ Plain.inherited k = None ->
  written_under {[ a := x ]} k = if decide (k = a) then x else k.
Proof.
  intros Hx Hk. unfold written_under, Plain.read. case_decide as E.
  - subst k. rewrite lookup_singleton_eq. simpl.
    by rewrite (proj2 (truthy_string_spec x)).
  - destruct Hk as [|Hk]; [done|]. by rewrite lookup_singleton_ne, Hk.
Qed.

(** *** Assignments *)

Lemma assign_ordinary (n : string) v (acc : Plain.t) :
  n <> "__proto__" ->
  Plain.assign n v acc =
  Plain.mk (Obj.set n v (Plain.own acc)) (Plain.proto acc).
Proof.
  intros Hn. unfold Plain.assign.
  by destruct (String.eqb_spec n "__proto__").
Qed.

(** An assignment writes the own property, or leaves the own
    properties alone. *)
Lemma assign_own (n : string) v (acc : Plain.t) :
  Plain.own (Plain.assign n v acc) = Obj.set n v (Plain.own acc)
  \/ Plain.own (Plain.assign n v acc) = Plain.own acc.
Proof.
  unfold Plain.assign, Plain.set_prototype.
  destruct (_ && _)%bool; [|by left].
  destruct (Plain.proto acc) as [| |props];
    [|by left|destruct (Obj.has "__proto__" props); [by left|]];
    destruct v; auto.
Qed.

Lemma wf_assign (n : string) v (acc : Plain.t) :
  Obj.wf (Plain.own acc) -> Obj.wf (Plain.own (Plain.assign n v acc)).
Proof.
  intros Hwf. destruct (assign_own n v acc) as [-> | ->];
    [by apply wf_set | done].
Qed.

Lemma wf_assign_all (w : string -> string) o (acc : Plain.t) :
  Obj.wf (Plain.own acc) -> Obj.wf (Plain.own (assign_all w o acc)).
Proof.
  unfold assign_all. revert acc.
  induction o as [|[k v] o IH]; intros acc Hwf; [done|].
  simpl. apply IH. by apply wf_assign.
Qed.

Lemma assign_all_ext (w w' : string -> string) o (acc : Plain.t) :
  (forall k, k ∈ Obj.keys o -> w k = w' k) ->
  assign_all w o acc = assign_all w' o acc.
Proof.
  unfold assign_all, Obj.keys. revert acc.
  induction o as [|[k v] o IH]; intros acc Hw; [done|].
  simpl. rewrite (Hw k) by (rewrite fmap_cons; apply elem_of_cons; by left).
  apply IH. intros k' Hk'. apply Hw. rewrite fmap_cons.
  apply elem_of_cons. by right.
Qed.

(** With no assignment to [__proto__], the assignments are a sequence
    of writes of own properties. *)
Lemma assign_all_ordinary (w : string -> string) o (acc : Plain.t) :
  (forall k, k ∈ Obj.keys o -> w k <> "__proto__") ->
  assign_all w o acc =
  Plain.mk (Obj.spread (Plain.own acc) (rename w o)) (Plain.proto acc).
Proof.
  unfold assign_all, Obj.spread, rename, Obj.keys. revert acc.
  induction o as [|[k v] o IH]; intros acc Hw.
  - by destruct acc.
  - rewrite fmap_cons. simpl.
    rewrite assign_ordinary
      by (apply Hw; rewrite fmap_cons; apply elem_of_cons; by left).
    rewrite IH; [done|]. intros k' Hk'. apply Hw. rewrite fmap_cons.
    apply elem_of_cons. by right.
Qed.

(** The loop of [Step.mapOutputs] is a sequence of assignments, one per
    entry, to the name [written_under] gives. *)
Lemma mapOutputs_assigns (this : Step) m outputs :
  outputMap this = Some m ->
  Step.mapOutputs this outputs =
  Plain.own (assign_all (written_under m) outputs Plain.empty).
Proof.
  intros Hm. unfold Step.mapOutputs, assign_all. rewrite Hm. f_equal.
  generalize Plain.empty as acc.
  induction outputs as [|[k v] o IH]; intros acc; [done|].
  simpl. rewrite IH. f_equal. unfold written_under.
  by destruct (Plain.truthy (Plain.read m k)).
Qed.

(** With no assignment to [__proto__], it is a sequence of writes. *)
Lemma mapOutputs_writes (this : Step) m outputs :
  outputMap this = Some m ->
  (forall k, k ∈ Obj.keys outputs -> written_under m k <> "__proto__") ->
  Step.mapOutputs this outputs = Obj.spread [] (rename (written_under m) outputs).
Proof.
  intros Hm Hw. rewrite (mapOutputs_assigns this m) by done.
  by rewrite assign_all_ordinary.
Qed.

Lemma wf_mapOutputs (this : Step) outputs :
  Obj.wf outputs -> Obj.wf (Step.mapOutputs this outputs).
Proof.
  intros Hwf. destruct (outputMap this) as [m|] eqn:E.
  - rewrite (mapOutputs_assigns this m) by done.
    apply wf_assign_all. apply NoDup_nil_2.
  - unfold Step.mapOutputs. by rewrite E.
Qed.

End Remapping.

(** ** The scenarios of the step [greet] *)

Example scenario_greet :
  Step.run ada (start greet) =
  (Return [("name", VStr "Ada"); ("greeting", VStr "Hello, Ada")],
   after_return (start greet) ada [("greeting", VStr "Hello, Ada")] tt)
  /\ calls (this (Step.run ada (start greet)).2) =
     [[("inputs", VObj [("name", VStr "Ada")]);
       ("outputs", VObj [("greeting", VStr "Hello, Ada")])]].
Proof. split; reflexivity. Qed.

Example scenario_greet_message :
  (Step.run ada (start greet_message)).1 =
  Return [("name", VStr "Ada"); ("message", VStr "Hello, Ada")].
Proof. reflexivity. Qed.

Example scenario_update_on_fresh_step :
  Step.recordCall [("outputs", VObj [])] true (start greet) =
  (Throw cannot_update, start greet).
Proof. reflexivity. Qed.

(** * The claims *)

Section Run.

Context {World : Type} `{!Concrete World}.
Implicit Types (st : Machine World) (args : RunStepArgs).

(** C1. When the delegated computation returns [outputs], [run]
    returns [{ ...inputs, ...mapped }] for the inputs it was given and
    [mapped = mapOutputs(outputs)]: a key of the result reads the
    mapped output's value if the mapped output has it and the input's
    value otherwise, the keys of the result are those of the inputs
    together with those of the mapped outputs, every input key is a
    key of the result, and without an output map the result is
    [{ ...inputs, ...outputs }] over the raw outputs. *)
Theorem run_returns_merge st args (outputs : obj) (w : World) :
  Obj.wf (RunStepArgs.inputs args) ->
  Obj.wf outputs ->
  _run (RunStepArgs.mk (RunStepArgs.steps args) (RunStepArgs.inputs args))
    (world st) = (Return outputs, w) ->
  let inputs := RunStepArgs.inputs args in
  let mapped := Step.mapOutputs (this st) outputs in
  let result := Obj.spread (Obj.spread [] inputs) mapped in
  (Step.run args st).1 = Return result
  /\ (forall k, Obj.get k result =
                match Obj.get k mapped with
                | Some v => Some v
                | None => Obj.get k inputs
                end)
  /\ (forall k, k ∈ Obj.keys result <->
                k ∈ Obj.keys inputs \/ k ∈ Obj.keys mapped)
  /\ (forall k, k ∈ Obj.keys inputs -> k ∈ Obj.keys result)
  /\ (outputMap (this st) = None ->
      result = Obj.spread (Obj.spread [] inputs) outputs).
Proof.
  intros Hin Hout Hrun inputs mapped result.
  assert (forall k, k ∈ Obj.keys result <->
                    k ∈ Obj.keys inputs \/ k ∈ Obj.keys mapped) as Hkeys.
  { intros k. subst result. rewrite <- !has_keys, !has_spread.
    unfold Obj.has at 1. simpl. rewrite orb_true_iff. tauto. }
  repeat split.
  - rewrite run_unfold, Hrun. reflexivity.
  - intros k. subst result.
    rewrite get_spread by (by apply wf_mapOutputs).
    destruct (Obj.get k mapped); [done|].
    fold (Obj.literal inputs). by apply get_literal.
  - by apply Hkeys.
  - by apply Hkeys.
  - intros k Hk. apply Hkeys. by left.
  - intros Hnone. subst result mapped. unfold Step.mapOutputs.
    by rewrite Hnone.
Qed.

End Run.

(** The scenario of the step [greet]: inputs [{ name: "Ada" }], no
    output map. *)
Lemma run_returns_merge_witness :
  (Step.run ada (start greet)).1 =
  Return [("name", VStr "Ada"); ("greeting", VStr "Hello, Ada")].
Proof.
  refine (proj1 (run_returns_merge (start greet) ada
                   [("greeting", VStr "Hello, Ada")] tt _ _ _)).
  - apply (NoDup_cons_2 _ _ (not_elem_of_nil _) (NoDup_nil_2 (A:=string))).
  - apply (NoDup_cons_2 _ _ (not_elem_of_nil _) (NoDup_nil_2 (A:=string))).
  - reflexivity.
Defined.

(** ** Output remapping *)

(** Inputs on which [Step.mapOutputs] parts from the remapping as
    worded.  With the output map [{ a: "" }] the value of [a] stays
    under [a], where the wording writes it under the declared target,
    the empty name.  With the output map [{ a: "x" }] and the outputs
    [{ a: 1, x: 2 }], [x] ends up holding the value of [x], written
    after that of [a].  With the output map [{ a: "x" }] and the outputs
    [{ a: 0, constructor: 1 }], the key [constructor], which the map
    does not declare, does not pass through: the read of the map finds
    the function [Object], and the value goes under its text.  With the
    output map [{ a: "__proto__" }] the value of [a] is handed to the
    setter, and the mapped outputs have no key [__proto__]. *)
Lemma mapOutputs_counterexample :
  Step.mapOutputs (Step.constructor "s" (Some {[ "a" := "" ]})) [("a", VNum 1)]
  <> Reference.mapOutputs (Some {[ "a" := "" ]}) [("a", VNum 1)]
  /\ Obj.get "a" [("a", VNum 1); ("x", VNum 2)] = Some (VNum 1)
  /\ Obj.get "x"
       (Step.mapOutputs (Step.constructor "s" (Some {[ "a" := "x" ]}))
          [("a", VNum 1); ("x", VNum 2)]) <> Some (VNum 1)
  /\ Step.mapOutputs (Step.constructor "s" (Some {[ "a" := "x" ]}))
       [("a", VNum 0); ("constructor", VNum 1)] =
     [("x", VNum 0); ("function Object() { [native code] }", VNum 1)]
  /\ Step.mapOutputs (Step.constructor "s" (Some {[ "a" := "__proto__" ]}))
       [("a", VObj [("x", VNum 1)])] = [].
Proof.
  split; [|split; [|split; [|split]]].
  - vm_compute. discriminate.
  - reflexivity.
  - vm_compute. discriminate.
  - reflexivity.
  - reflexivity.
Qed.

(** Reads and assignments through [Object.prototype]: an undeclared
    key that names a method is written under the method's text, also
    with the empty map; a primitive assigned to [__proto__] is dropped;
    and once [null] has been made the prototype, [__proto__] is an
    ordinary name. *)
Example mapOutputs_through_prototype :
  Step.mapOutputs (Step.constructor "s" (Some ∅)) [("toString", VNum 1)] =
    [("function toString() { [native code] }", VNum 1)]
  /\ Step.mapOutputs (Step.constructor "s" (Some ∅)) [("__proto__", VNum 1)] =
     [("[object Object]", VNum 1)]
  /\ Step.mapOutputs (Step.constructor "s" (Some {[ "a" := "__proto__" ]}))
       [("a", VNum 1); ("b", VNum 2)] = [("b", VNum 2)]
  /\ Step.mapOutputs
       (Step.constructor "s"
          (Some (<[ "a" := "__proto__" ]> {[ "b" := "__proto__" ]})))
       [("a", VNull); ("b", VNum 2)] = [("__proto__", VNum 2)]
  /\ Step.mapOutputs (Step.constructor "s" None) [("toString", VNum 1)] =
     [("toString", VNum 1)].
Proof. repeat split. Qed.

(** C2, amended.  Without an output map the outputs come back
    unchanged, and a declaration for a key the outputs do not have
    changes nothing.  On outputs with ordinary names (a key the map
    does not itself declare is no member name of [Object.prototype],
    and nothing is assigned to [__proto__]), [mapOutputs] is the
    remapping as worded, run with the declarations whose target name is
    not empty: a key whose declared target is the empty string keeps
    its own name; and of the entries written under one name the last in
    iteration order is read back.  With the output map [{ a: x }], [x]
    not empty, and such outputs holding [v] under [a]: the mapped
    outputs hold [v] under [x] when the outputs have no key [x] of their
    own, they have no key [a] unless [x = a], and every key other than
    [a] and [x] reads as in the outputs. *)
Theorem mapOutputs_refines_reference (this : Step) (outputs : obj) :
  Obj.wf outputs ->
  (outputMap this = None -> Step.mapOutputs this outputs = outputs)
  /\ (forall (m : gmap string string) (this' : Step) (k t : string),
        outputMap this = Some m ->
        outputMap this' = Some (<[k := t]> m) ->
        k ∉ Obj.keys outputs ->
        Step.mapOutputs this' outputs = Step.mapOutputs this outputs)
  /\ (forall m : gmap string string,
        outputMap this = Some m ->
        ordinary_names m outputs ->
        Step.mapOutputs this outputs =
          Reference.mapOutputs (Some (Reference.named m)) outputs
        /\ (forall (o1 o2 : obj) (k : string) (v : value),
              outputs = o1 ++ (k, v) :: o2 ->
              (forall k', k' ∈ Obj.keys o2 ->
                 written_under m k' <> written_under m k) ->
              Obj.get (written_under m k) (Step.mapOutputs this outputs) =
                Some v)
        /\ (forall (a x : string) (v : value),
              m = {[ a := x ]} ->
              x <> "" ->
              Obj.get a outputs = Some v ->
              (x = a \/ Obj.get x outputs = None ->
               Obj.get x (Step.mapOutputs this outputs) = Some v)
              /\ (x <> a -> Obj.get a (Step.mapOutputs this outputs) = None)
              /\ (forall k, k <> a -> k <> x ->
                    Obj.get k (Step.mapOutputs this outputs) =
                    Obj.get k outputs))).
Proof.
  intros Hwf. split; [|split].
  - intros E. unfold Step.mapOutputs. by rewrite E.
  - intros m this' k t Hm Hm' Hk.
    rewrite (mapOutputs_assigns this m), (mapOutputs_assigns this' (<[k:=t]> m))
      by done.
    f_equal. apply assign_all_ext. intros k' Hk'.
    unfold written_under, Plain.read.
    rewrite lookup_insert_ne; [done|]. by intros ->.
  - intros m Hm Hord.
    assert (Step.mapOutputs this outputs =
            Obj.spread [] (rename (written_under m) outputs)) as Hwrites.
    { apply mapOutputs_writes; [done|]. intros k Hk. by apply Hord. }
    rewrite Hwrites. split; [|split].
    + rewrite reference_writes. f_equal. apply rename_ext.
      intros k Hk. symmetry. apply declared_named. by apply Hord.
    + intros o1 o2 k v -> Hlater.
      by rewrite get_spread_last, get_rename_last.
    + intros a x v -> Hx Ha.
      set (w := fun k : string => if decide (k = a) then x else k).
      assert (rename (written_under {[a := x]}) outputs = rename w outputs)
        as ->.
      { apply rename_ext. intros k Hk. apply written_under_singleton; [done|].
        destruct (decide (k = a)) as [|Hne]; [by left|right].
        apply (Hord k Hk). by rewrite lookup_singleton_ne. }
      split; [|split].
      * intros Hfree. rewrite get_spread_last.
        assert (w a = x) as Hwa by (unfold w; by rewrite decide_True).
        pose proof (get_rename_unique w outputs a Hwf) as Hu.
        rewrite Hwa in Hu. rewrite Hu, Ha; [done|].
        intros k Hk. unfold w. case_decide; [done|].
        intros ->. destruct Hfree as [->|Hnone]; [done|].
        by apply get_None_keys in Hnone.
      * intros Hne. rewrite get_spread_last, get_rename_none; [done|].
        intros k _. unfold w. case_decide; congruence.
      * intros k Hka Hkx. rewrite get_spread_last.
        assert (w k = k) as Hwk by (unfold w; by rewrite decide_False).
        pose proof (get_rename_unique w outputs k Hwf) as Hu.
        rewrite Hwk in Hu. rewrite Hu; [by destruct (Obj.get k outputs)|].
        intros k' _. unfold w. case_decide; congruence.
Qed.

(** The second scenario: the output map [{ greeting: "message" }]. *)
Lemma mapOutputs_refines_reference_witness :
  Obj.get "message"
    (Step.mapOutputs greet_message [("greeting", VStr "Hello, Ada")])
  = Some (VStr "Hello, Ada").
Proof.
  refine (proj1 (proj2 (proj2 (proj2 (proj2
    (mapOutputs_refines_reference greet_message
       [("greeting", VStr "Hello, Ada")] _)) {[ "greeting" := "message" ]}
    _ _)) "greeting" "message" (VStr "Hello, Ada") _ _ _) _).
  - apply (NoDup_cons_2 _ _ (not_elem_of_nil _) (NoDup_nil_2 (A:=string))).
  - reflexivity.
  - intros k Hk. apply list_elem_of_singleton in Hk. subst k.
    split; [intros Hnone; vm_compute in Hnone; discriminate Hnone|].
    vm_compute. discriminate.
  - reflexivity.
  - discriminate.
  - reflexivity.
  - right. reflexivity.
Defined.

(** ** Serialization *)

Section Serialize.

Context {World : Type} `{!Concrete World}.
Implicit Types (st : Machine World).

(** [serialize], in one piece: the guard [!this.calls] never holds. *)
Lemma serialize_unfold st :
  Step.serialize st =
  let call := Arr.get (calls (this st)) (Arr.length (calls (this st)) - 1) in
  (Return (Obj.spread (Obj.literal [("call", Step.value_of call)])
             (_serialize (this st) (world st))),
   {| this := this st; world := world st;
      log := log st ++ [debug_serializing (name (this st)) call] |}).
Proof. reflexivity. Qed.

(** With a call on record and metadata that does not itself use the
    key [call], the snapshot holds the most recent call record under
    [call] and the metadata beside it. *)
Lemma serialize_last_call st (h : list obj) (last : obj) :
  calls (this st) = h ++ [last] ->
  Obj.wf (_serialize (this st) (world st)) ->
  exists snapshot,
    (Step.serialize st).1 = Return snapshot
    /\ (Obj.get "call" (_serialize (this st) (world st)) = None ->
        Obj.get "call" snapshot = Some (VObj last))
    /\ (forall k v, Obj.get k (_serialize (this st) (world st)) = Some v ->
                   Obj.get k snapshot = Some v).
Proof.
  intros Hcalls Hwf. rewrite serialize_unfold, Hcalls, Arr_get_last_snoc.
  eexists. split; [reflexivity|]. split.
  - intros Hnone. rewrite get_spread, Hnone by done. reflexivity.
  - intros k v Hk. by rewrite get_spread, Hk.
Qed.

(** C10. [serialize] returns, and leaves the step as it found it: the
    call history, the name, the output map and both schemas are the
    same after the call as before, and so is everything the concrete
    step owns; only the logger's trace grows, by one entry. *)
Theorem serialize_read_only st :
  (exists snapshot, (Step.serialize st).1 = Return snapshot)
  /\ this (Step.serialize st).2 = this st
  /\ calls (this (Step.serialize st).2) = calls (this st)
  /\ name (this (Step.serialize st).2) = name (this st)
  /\ outputMap (this (Step.serialize st).2) = outputMap (this st)
  /\ inputsSchema (this (Step.serialize st).2) = inputsSchema (this st)
  /\ outputsSchema (this (Step.serialize st).2) = outputsSchema (this st)
  /\ world (Step.serialize st).2 = world st
  /\ exists entry, log (Step.serialize st).2 = log st ++ [entry].
Proof.
  rewrite serialize_unfold. cbn [fst snd this world log].
  repeat split; eauto.
Qed.

End Serialize.

(** C3, at a step that has recorded no call. [serialize] on the fresh
    step [greet] does not return the empty structure: the empty array of
    calls passes the guard [!this.calls], so the snapshot has the key
    [call], holding [undefined], and the metadata of the concrete
    step. *)
Theorem serialize_without_calls :
  calls greet = []
  /\ (Step.serialize (start greet)).1 =
     Return [("call", VUndefined); ("type", VStr "greet");
             ("name", VStr "greet")]
  /\ (Step.serialize (start greet)).1 <> Return [].
Proof. repeat split. discriminate. Qed.

(** ** The call history under [run] *)

Section History.

Context {World : Type} `{!Concrete World}.
Implicit Types (st : Machine World) (args : RunStepArgs).

Lemma run_seq_cons args (l : list RunStepArgs) st :
  run_seq (args :: l) st =
  match Step.run args st with
  | (Return result, st1) =>
      match run_seq l st1 with
      | (Return results, st2) => (Return (result :: results), st2)
      | (Throw e, st2) => (Throw e, st2)
      end
  | (Throw e, st1) => (Throw e, st1)
  end.
Proof. reflexivity. Qed.

(** Invocations that all complete append one completed record each, in
    invocation order, and change no other field of the step. *)
Lemma run_seq_appends (l : list RunStepArgs) :
  forall st (outs : list obj),
    delegated l (world st) = Return <$> outs ->
    exists results st',
      run_seq l st = (Return results, st')
      /\ calls (this st') = calls (this st) ++ completed_calls (this st) l outs
      /\ outputMap (this st') = outputMap (this st)
      /\ List.length results = List.length l.
Proof.
  induction l as [|args l IH]; intros st outs Hdel.
  - destruct outs; [|done]. exists [], st. simpl.
    by rewrite app_nil_r.
  - simpl in Hdel.
    destruct (_run _ (world st)) as [c w] eqn:Hrun.
    destruct outs as [|out outs]; [done|].
    rewrite fmap_cons in Hdel. injection Hdel as -> Hdel.
    rewrite run_seq_cons, run_unfold, Hrun.
    destruct (IH (after_return st args out w) outs Hdel)
      as (results & st' & Hseq & Hcalls & Hmap & Hlen).
    rewrite Hseq. eexists _, st'. split; [reflexivity|].
    split; [|split].
    + rewrite Hcalls. cbn [after_return this calls set_calls].
      rewrite <- app_assoc. reflexivity.
    + by rewrite Hmap.
    + simpl. by rewrite Hlen.
Qed.

Lemma delegated_length (l : list RunStepArgs) :
  forall (w : World), List.length (delegated l w) = List.length l.
Proof.
  induction l as [|args l IH]; intros w; [done|]. simpl.
  destruct (_run _ w) as [c w']. simpl. by rewrite IH.
Qed.

(** [run] throws only what the delegated computation throws. *)
Lemma run_throws_delegated args st (e : exn) :
  (Step.run args st).1 = Throw e ->
  (_run (RunStepArgs.mk (RunStepArgs.steps args) (RunStepArgs.inputs args))
     (world st)).1 = Throw e.
Proof.
  rewrite run_unfold. by destruct (_run _ (world st)) as [[outputs|e'] w].
Qed.

(** The records of the history stay objects under [run]. *)
Lemma run_keeps_calls_wf args st :
  Forall Obj.wf (calls (this st)) ->
  Forall Obj.wf (calls (this (Step.run args st).2)).
Proof.
  intros Hcalls. rewrite run_unfold.
  destruct (_run _ (world st)) as [[outputs|e] w];
    cbn [snd after_return after_throw this calls set_calls];
    apply Forall_app; (split; [done|]); apply Forall_singleton;
    unfold Obj.wf, completed_call, pending_call; simpl;
    repeat (apply NoDup_cons_2 || apply NoDup_nil_2);
    rewrite ?not_elem_of_cons; repeat split;
    (discriminate || apply not_elem_of_nil).
Qed.

(** C4. On a step with no call on record, [N] invocations of [run] in
    sequence whose delegated computations all return leave exactly [N]
    call records; the [i]-th holds the inputs given to the [i]-th
    invocation under [inputs] and its remapped outputs under
    [outputs]. *)
Theorem run_seq_history st (l : list RunStepArgs) (outs : list obj) :
  calls (this st) = [] ->
  delegated l (world st) = Return <$> outs ->
  (exists results, (run_seq l st).1 = Return results)
  /\ List.length (calls (this (run_seq l st).2)) = List.length l
  /\ (forall (i : nat) args out,
        l !! i = Some args -> outs !! i = Some out ->
        exists call,
          calls (this (run_seq l st).2) !! i = Some call
          /\ call = completed_call (RunStepArgs.inputs args)
                      (Step.mapOutputs (this st) out)
          /\ Obj.get "inputs" call = Some (VObj (RunStepArgs.inputs args))
          /\ Obj.get "outputs" call =
             Some (VObj (Step.mapOutputs (this st) out))).
Proof.
  intros Hnil Hdel.
  destruct (run_seq_appends l st outs Hdel)
    as (results & st' & Hseq & Hcalls & _ & _).
  rewrite Hseq. cbn [fst snd]. rewrite Hcalls, Hnil, app_nil_l.
  assert (List.length outs = List.length l) as Hlen.
  { rewrite <- (delegated_length l (world st)), Hdel. by rewrite length_fmap. }
  split; [by eexists|]. split.
  - unfold completed_calls. rewrite length_zip_with. lia.
  - intros i args out Hi Ho. eexists. split; [|split; [reflexivity|done]].
    unfold completed_calls. rewrite lookup_zip_with, Hi. simpl.
    by rewrite Ho.
Qed.

(** C5. When the delegated computation throws [e], [run] throws [e];
    the history is the one before with one record more, which holds the
    inputs under [inputs] and has no [outputs]. *)
Theorem run_delegated_failure st args (e : exn) (w : World) :
  _run (RunStepArgs.mk (RunStepArgs.steps args) (RunStepArgs.inputs args))
    (world st) = (Throw e, w) ->
  (Step.run args st).1 = Throw e
  /\ List.length (calls (this (Step.run args st).2)) =
     List.length (calls (this st)) + 1
  /\ take (List.length (calls (this st))) (calls (this (Step.run args st).2)) =
     calls (this st)
  /\ exists call,
       calls (this (Step.run args st).2) = calls (this st) ++ [call]
       /\ Obj.get "inputs" call = Some (VObj (RunStepArgs.inputs args))
       /\ Obj.has "outputs" call = false.
Proof.
  intros Hrun. rewrite run_unfold, Hrun.
  cbn [fst snd after_throw this calls set_calls].
  split; [done|]. split; [|split].
  - rewrite length_app. simpl. lia.
  - by rewrite take_app_length.
  - by eexists.
Qed.

End History.

(** Two greetings in a row. *)
Lemma run_seq_history_witness :
  List.length (calls (this (run_seq [ada; ada] (start greet)).2)) = 2.
Proof.
  refine (proj1 (proj2 (run_seq_history (start greet) [ada; ada]
    [[("greeting", VStr "Hello, Ada")]; [("greeting", VStr "Hello, Ada")]]
    _ _))).
  - reflexivity.
  - reflexivity.
Defined.

(** A greeting asked for without a name. *)
Lemma run_delegated_failure_witness :
  (Step.run nobody (start greet)).1 = Throw (Error "name is required").
Proof.
  refine (proj1 (run_delegated_failure (start greet) nobody
                   (Error "name is required") tt _)).
  reflexivity.
Defined.

(** ** The ledger: [recordCall] *)

Section Ledger.

Context {World : Type}.
Implicit Types (st : Machine World) (fields : obj).

Lemma snoc_or_nil {A : Type} (l : list A) :
  l = [] \/ exists init last, l = init ++ [last].
Proof. induction l using rev_ind; [by left | right; eauto]. Qed.

(** C6. In update mode on an empty history [recordCall] throws the
    error "Cannot update last call, calls length is 0" and changes
    nothing: the history is still empty, and no trace is logged. *)
Theorem recordCall_update_empty st fields :
  calls (this st) = [] ->
  (Step.recordCall fields true st).1 =
    Throw (Error "Cannot update last call, calls length is 0")
  /\ calls (this (Step.recordCall fields true st).2) = []
  /\ (Step.recordCall fields true st).2 = st.
Proof.
  intros Hnil. rewrite recordCall_update_nil by done. by cbn [fst snd].
Qed.

(** C7. [recordCall] in append mode returns and puts one record after
    the history, which is otherwise as before; the record reads as the
    given fields.  In update mode on a non-empty history it returns,
    keeps the length, and puts in place of the last record the merge
    [{ ...prev, ...fields }], in which a given field shadows the
    previous field of the same name; the records before the last are as
    before.  In every case the history is at least as long as before and
    every record before the last one is still in its place. *)
Theorem recordCall_append_only st fields (updatePrev : bool) :
  Obj.wf fields ->
  Forall Obj.wf (calls (this st)) ->
  let after := Step.recordCall fields updatePrev st in
  let h := calls (this st) in
  let h' := calls (this after.2) in
  (updatePrev = false ->
     after.1 = Return tt
     /\ List.length h' = List.length h + 1
     /\ exists call, h' = h ++ [call]
          /\ forall k, Obj.get k call = Obj.get k fields)
  /\ (updatePrev = true -> h <> [] ->
     after.1 = Return tt
     /\ List.length h' = List.length h
     /\ exists init prev call,
          h = init ++ [prev] /\ h' = init ++ [call]
          /\ forall k, Obj.get k call =
                       match Obj.get k fields with
                       | Some v => Some v
                       | None => Obj.get k prev
                       end)
  /\ List.length h <= List.length h'
  /\ (forall i, i + 1 < List.length h -> h' !! i = h !! i).
Proof.
  intros Hfields Hcalls after h h'. subst after h h'.
  destruct updatePrev.
  - destruct (snoc_or_nil (calls (this st))) as [Hnil|(init & prev & Hsnoc)].
    + rewrite recordCall_update_nil by done. cbn [fst snd].
      split; [done|]. split; [done|]. split; [lia|done].
    + rewrite (recordCall_update_snoc _ _ init prev) by done.
      cbn [fst snd this calls set_calls]. rewrite Hsnoc.
      assert (Obj.wf prev) as Hprev.
      { rewrite Hsnoc in Hcalls. apply Forall_app in Hcalls as [_ Hl].
        by inversion Hl. }
      split; [done|]. split; [|split].
      * intros _ _. split; [done|]. split.
        { by rewrite !length_app. }
        exists init, prev. eexists. split; [done|]. split; [done|].
        intros k. rewrite get_spread by done.
        destruct (Obj.get k fields); [done|].
        fold (Obj.literal prev). by apply get_literal.
      * rewrite !length_app. simpl. lia.
      * intros i Hi. rewrite length_app in Hi. simpl in Hi.
        by rewrite !lookup_app_l by lia.
  - rewrite recordCall_append. cbn [fst snd this calls set_calls].
    split; [|split; [done|split]].
    + intros _. split; [done|]. split.
      { rewrite length_app. simpl. lia. }
      eexists. split; [done|]. intros k.
      fold (Obj.literal fields). by apply get_literal.
    + rewrite length_app. simpl. lia.
    + intros i Hi. by rewrite lookup_app_l by lia.
Qed.

End Ledger.

(** An update on the fresh step [greet]. *)
Lemma recordCall_update_empty_witness :
  (Step.recordCall [("outputs", VObj [])] true (start greet)).1 =
    Throw (Error "Cannot update last call, calls length is 0").
Proof.
  refine (proj1 (recordCall_update_empty (start greet)
                   [("outputs", VObj [])] _)).
  reflexivity.
Defined.

(** Patching the record of a greeting with a note. *)
Lemma recordCall_append_only_witness :
  List.length
    (calls (this (Step.recordCall [("note", VStr "checked")] true
                    (Step.run ada (start greet)).2).2)) = 1.
Proof.
  refine (proj1 (proj2 (proj1 (proj2
    (recordCall_append_only (Step.run ada (start greet)).2
       [("note", VStr "checked")] true _ _)) _ _))).
  - apply (NoDup_cons_2 _ _ (not_elem_of_nil _) (NoDup_nil_2 (A:=string))).
  - apply Forall_singleton.
    apply NoDup_cons_2; [|apply (NoDup_singleton (A:=string))].
    apply not_elem_of_cons. split; [discriminate | apply not_elem_of_nil].
  - reflexivity.
  - discriminate.
Defined.

(** ** Schemas *)

Section Schemas.

Context {World : Type} `{!Concrete World}.
Implicit Types (st : Machine World) (args : RunStepArgs).

(** C8. Whatever schemas are attached, [run] completes the same way,
    with the same result or the same error, and leaves the same call
    history, the same trace and the same world as with any other
    schemas, or none; the schemas stay as attached.  [preprocess]
    returns the inputs as given and [postprocess] the merge, neither
    consulting a schema; and the setters do attach: after
    [inputs(schema)] or [outputs(schema)] the machine is the one before
    with that schema attached. *)
Theorem run_ignores_schemas st args (i o i' o' : option Schema) :
  let one := Step.run args (attach i o st) in
  let other := Step.run args (attach i' o' st) in
  one.1 = other.1
  /\ calls (this one.2) = calls (this other.2)
  /\ log one.2 = log other.2
  /\ world one.2 = world other.2
  /\ inputsSchema (this one.2) = i /\ outputsSchema (this one.2) = o
  /\ (forall inputs : obj,
        (Step.preprocess inputs (attach i o st)).1 = Return inputs)
  /\ (forall inputs outputs : obj,
        (Step.postprocess inputs outputs (attach i o st)).1 =
        Return (Obj.spread (Obj.spread [] inputs) outputs))
  /\ (forall schema : Schema,
        (Step.inputs schema st).2 =
          attach (Some schema) (outputsSchema (this st)) st
        /\ (Step.outputs schema st).2 =
          attach (inputsSchema (this st)) (Some schema) st).
Proof.
  cbv zeta. rewrite !run_unfold. cbn [attach world].
  destruct (_run _ (world st)) as [[outputs|e] w];
    cbn [fst snd after_return after_throw attach this world log calls
         name set_calls with_schemas set_inputsSchema set_outputsSchema
         inputsSchema outputsSchema];
    repeat split.
Qed.

(** C9. [inputs(schema)] and [outputs(schema)] return the step they
    were called on, as the call leaves it; the call changes the schema
    it sets and nothing else; and a second call leaves the machine as
    if the first had not been made, with the second schema in place. *)
Theorem setters_return_this st (first second : Schema) :
  ((Step.inputs first st).1 = Return (this (Step.inputs first st).2)
   /\ this (Step.inputs first st).2 = set_inputsSchema (Some first) (this st)
   /\ world (Step.inputs first st).2 = world st
   /\ log (Step.inputs first st).2 = log st
   /\ inputsSchema (this (Step.inputs second (Step.inputs first st).2).2) =
      Some second
   /\ Step.inputs second (Step.inputs first st).2 = Step.inputs second st)
  /\ ((Step.outputs first st).1 = Return (this (Step.outputs first st).2)
     /\ this (Step.outputs first st).2 =
        set_outputsSchema (Some first) (this st)
     /\ world (Step.outputs first st).2 = world st
     /\ log (Step.outputs first st).2 = log st
     /\ outputsSchema (this (Step.outputs second (Step.outputs first st).2).2) =
        Some second
     /\ Step.outputs second (Step.outputs first st).2 = Step.outputs second st).
Proof. repeat split. Qed.

End Schemas.

(** * Further properties *)

(** ** One invocation *)

Section RunMore.

Context {World : Type} `{!Concrete World}.
Implicit Types (st : Machine World) (args : RunStepArgs).

(** Whether it returns or throws, [run] puts exactly one record after
    the history and leaves the records before it as they were; the new
    record holds the inputs, and it has outputs exactly when [run]
    returned. *)
Theorem run_appends_one_record st args :
  exists call,
    calls (this (Step.run args st).2) = calls (this st) ++ [call]
    /\ Obj.get "inputs" call = Some (VObj (RunStepArgs.inputs args))
    /\ (Obj.has "outputs" call = true <->
        exists result, (Step.run args st).1 = Return result).
Proof.
  rewrite run_unfold.
  destruct (_run _ (world st)) as [[outputs|e] w];
    cbn [fst snd after_return after_throw this calls set_calls];
    eexists; (split; [reflexivity|]); (split; [reflexivity|]).
  - split; [by eexists | done].
  - split; [done | by intros [result ?]].
Qed.

(** [run] writes to no field but [calls]: the name, the output map and
    both schemas are after it what they were before, whether it returns
    or throws. *)
Theorem run_keeps_config st args :
  same_config (this (Step.run args st).2) (this st).
Proof.
  rewrite run_unfold.
  by destruct (_run _ (world st)) as [[outputs|e] w].
Qed.

(** [run] reads neither the call history nor the name nor the schemas
    to compute: on two machines with the same output map and the same
    world it completes alike and leaves the same world. *)
Theorem run_reads_map_and_world st st' args :
  outputMap (this st) = outputMap (this st') ->
  world st = world st' ->
  (Step.run args st).1 = (Step.run args st').1
  /\ world (Step.run args st).2 = world (Step.run args st').2.
Proof.
  intros Hmap Hworld. rewrite !run_unfold, <- Hworld.
  destruct (_run _ (world st)) as [[outputs|e] w]; cbn [fst snd]; [|done].
  by rewrite (mapOutputs_outputMap (this st) (this st')).
Qed.

End RunMore.

(** A second greeting, on the machine the first one left. *)
Lemma run_reads_map_and_world_witness :
  (Step.run ada (Step.run ada (start greet)).2).1 =
  (Step.run ada (start greet)).1.
Proof.
  refine (proj1 (run_reads_map_and_world (Step.run ada (start greet)).2
                   (start greet) ada _ _)).
  - reflexivity.
  - reflexivity.
Defined.

(** ** Invocations in sequence *)

Section SequencesMore.

Context {World : Type} `{!Concrete World}.
Implicit Types (st : Machine World) (args : RunStepArgs).

Lemma same_config_trans (s1 s2 s3 : Step) :
  same_config s1 s2 -> same_config s2 s3 -> same_config s1 s3.
Proof.
  unfold same_config. intros (?&?&?&?) (?&?&?&?).
  repeat split; congruence.
Qed.

(** From any history, invocations that all complete return the merges
    of their inputs with their remapped outputs, in invocation order,
    and put their completed records after the history, which they leave
    as it was. *)
Theorem run_seq_returns_merges (l : list RunStepArgs) :
  forall st (outs : list obj),
    delegated l (world st) = Return <$> outs ->
    (run_seq l st).1 = Return (merged_results (this st) l outs)
    /\ calls (this (run_seq l st).2) =
       calls (this st) ++ completed_calls (this st) l outs.
Proof.
  induction l as [|args l IH]; intros st outs Hdel.
  - destruct outs; [|done]. simpl. by rewrite app_nil_r.
  - simpl in Hdel.
    destruct (_run _ (world st)) as [c w] eqn:Hrun.
    destruct outs as [|out outs]; [done|].
    rewrite fmap_cons in Hdel. injection Hdel as -> Hdel.
    rewrite run_seq_cons, run_unfold, Hrun.
    destruct (IH (after_return st args out w) outs Hdel) as [Hres Hcalls].
    destruct (run_seq l (after_return st args out w)) as [[results|e] st'];
      [|done].
    cbn [fst snd] in *. injection Hres as ->. split; [done|].
    rewrite Hcalls. cbn [after_return this calls set_calls].
    by rewrite <- app_assoc.
Qed.

(** A sequence ends at the first invocation whose delegated computation
    throws, with what it threw: the invocations before it have left
    their completed records, the failed one its inputs-only record, and
    those after it are not run and leave nothing. *)
Theorem run_seq_first_failure (l1 : list RunStepArgs) :
  forall st args (l2 : list RunStepArgs) (outs : list obj) (e : exn),
    delegated (l1 ++ [args]) (world st) = (Return <$> outs) ++ [Throw e] ->
    (run_seq (l1 ++ args :: l2) st).1 = Throw e
    /\ calls (this (run_seq (l1 ++ args :: l2) st).2) =
       calls (this st) ++ completed_calls (this st) l1 outs
         ++ [pending_call (RunStepArgs.inputs args)].
Proof.
  induction l1 as [|a l1 IH]; intros st args l2 outs e Hdel.
  - simpl in Hdel. destruct (_run _ (world st)) as [c w] eqn:Hrun.
    destruct outs as [|out outs].
    + injection Hdel as ->. simpl app.
      rewrite run_seq_cons, run_unfold, Hrun. by cbn.
    + rewrite fmap_cons in Hdel. simpl in Hdel. injection Hdel as _ Hdel.
      by destruct outs.
  - simpl in Hdel. destruct (_run _ (world st)) as [c w] eqn:Hrun.
    destruct outs as [|out outs].
    + simpl in Hdel. injection Hdel as _ Hdel.
      destruct l1; simpl in Hdel; [|by destruct (_run _ w)].
      by destruct (_run _ w).
    + rewrite fmap_cons in Hdel. simpl in Hdel. injection Hdel as -> Hdel.
      rewrite <- app_comm_cons, run_seq_cons, run_unfold, Hrun.
      destruct (IH (after_return st a out w) args l2 outs e Hdel)
        as [Hres Hcalls].
      destruct (run_seq (l1 ++ args :: l2) (after_return st a out w))
        as [[results|e'] st']; [done|].
      cbn [fst snd] in *. split; [done|].
      rewrite Hcalls. cbn [after_return this calls set_calls].
      by rewrite <- app_assoc.
Qed.

(** However a sequence of invocations ends, it leaves the name, the
    output map and both schemas as they were, and the history it found
    is the beginning of the history it leaves. *)
Theorem run_seq_keeps_config_and_history (l : list RunStepArgs) :
  forall st,
    same_config (this (run_seq l st).2) (this st)
    /\ calls (this st) `prefix_of` calls (this (run_seq l st).2).
Proof.
  induction l as [|args l IH]; intros st.
  - simpl. by split.
  - rewrite run_seq_cons, run_unfold.
    destruct (_run _ (world st)) as [[out|e] w].
    + destruct (IH (after_return st args out w)) as [Hcfg Hpre].
      assert (same_config (this (after_return st args out w)) (this st))
        as Hone by done.
      assert (calls (this st) `prefix_of`
                calls (this (after_return st args out w))) as Hgrow
        by apply prefix_app_r, reflexivity.
      destruct (run_seq l (after_return st args out w)) as [[results|e] st2];
        cbn [snd] in *;
        (split; [by eapply same_config_trans | by etrans]).
    + cbn [snd]. split; [done|]. by apply prefix_app_r.
Qed.

End SequencesMore.

(** A greeting, then one asked for without a name, then one never
    made. *)
Lemma run_seq_first_failure_witness :
  (run_seq [ada; nobody; ada] (start greet)).1 =
    Throw (Error "name is required")
  /\ calls (this (run_seq [ada; nobody; ada] (start greet)).2) =
     [completed_call [("name", VStr "Ada")] [("greeting", VStr "Hello, Ada")];
      pending_call []].
Proof.
  refine (run_seq_first_failure [ada] (start greet) nobody [ada]
            [[("greeting", VStr "Hello, Ada")]] (Error "name is required") _).
  reflexivity.
Defined.

(** Two greetings on a machine that has already made one. *)
Lemma run_seq_returns_merges_witness :
  List.length
    (calls (this (run_seq [ada; ada] (Step.run ada (start greet)).2).2)) = 3.
Proof.
  refine (eq_trans (f_equal (@List.length obj) (proj2
    (run_seq_returns_merges [ada; ada] (Step.run ada (start greet)).2
       [[("greeting", VStr "Hello, Ada")]; [("greeting", VStr "Hello, Ada")]]
       _))) _).
  - reflexivity.
  - reflexivity.
Defined.

(** ** Output remapping, further *)

Section RemappingMore.

Implicit Types (this : Step) (o outputs : obj) (k : string) (v : value).

Lemma elem_literal k v (R : obj) : (k, v) ∈ Obj.spread [] R -> (k, v) ∈ R.
Proof.
  intros Hin. apply get_Some_elem in Hin; [|apply wf_literal].
  rewrite get_spread_last in Hin. unfold Obj.get_last in Hin.
  destruct (Obj.get k (reverse R)) as [v'|] eqn:E; [|done].
  simplify_eq. apply get_Some_in in E. by rewrite elem_of_reverse in E.
Qed.

Lemma keys_literal k (R : obj) :
  k ∈ Obj.keys (Obj.spread [] R) <-> k ∈ Obj.keys R.
Proof.
  rewrite <- !has_keys, has_spread. by unfold Obj.has at 1.
Qed.

Lemma keys_rename (w : string -> string) o : Obj.keys (rename w o) = w <$> Obj.keys o.
Proof.
  unfold Obj.keys, rename. rewrite <- !list_fmap_compose.
  by apply list_fmap_ext.
Qed.

Lemma target_of_map this m :
  outputMap this = Some m -> target_of this = written_under m.
Proof. intros E. unfold target_of. by rewrite E. Qed.

Lemma mapOutputs_target this outputs :
  no_proto_write this outputs ->
  Step.mapOutputs this outputs =
  match outputMap this with
  | Some m => Obj.spread [] (rename (target_of this) outputs)
  | None => outputs
  end.
Proof.
  unfold no_proto_write. intros Hw.
  destruct (outputMap this) as [m|] eqn:E.
  - rewrite (target_of_map this m) by done. by apply mapOutputs_writes.
  - unfold Step.mapOutputs. by rewrite E.
Qed.

Lemma keys_mapOutputs this outputs k :
  no_proto_write this outputs ->
  k ∈ Obj.keys (Step.mapOutputs this outputs) <->
  k ∈ target_of this <$> Obj.keys outputs.
Proof.
  intros Hw. rewrite mapOutputs_target by done. unfold target_of.
  destruct (outputMap this) as [m|].
  - by rewrite keys_literal, keys_rename.
  - by rewrite list_fmap_id.
Qed.

(** *** What assignments leave among the own properties *)

Lemma elem_set k v (n : string) (x : value) o :
  Obj.wf o -> (k, v) ∈ Obj.set n x o -> (k, v) = (n, x) \/ (k, v) ∈ o.
Proof.
  intros Hwf Hin. apply get_Some_elem in Hin; [|by apply wf_set].
  rewrite get_set in Hin. case_decide; simplify_eq; [by left|].
  right. by apply get_Some_in.
Qed.

Lemma keys_set (n : string) (x : value) o k :
  k ∈ Obj.keys (Obj.set n x o) <-> k = n \/ k ∈ Obj.keys o.
Proof.
  rewrite <- !has_keys. unfold Obj.has. rewrite get_set.
  case_decide as E.
  - subst. naive_solver.
  - split; [by right|]. by intros [->|].
Qed.

Lemma elem_assign k v (n : string) (x : value) (acc : Plain.t) :
  Obj.wf (Plain.own acc) ->
  (k, v) ∈ Plain.own (Plain.assign n x acc) ->
  (k, v) = (n, x) \/ (k, v) ∈ Plain.own acc.
Proof.
  intros Hwf. destruct (assign_own n x acc) as [-> | ->];
    [by apply elem_set | by right].
Qed.

Lemma keys_assign_mono k (n : string) (x : value) (acc : Plain.t) :
  k ∈ Obj.keys (Plain.own acc) ->
  k ∈ Obj.keys (Plain.own (Plain.assign n x acc)).
Proof.
  intros Hk. destruct (assign_own n x acc) as [-> | ->]; [|done].
  apply keys_set. by right.
Qed.

Lemma elem_assign_all (w : string -> string) o :
  forall (acc : Plain.t) k v,
    Obj.wf (Plain.own acc) ->
    (k, v) ∈ Plain.own (assign_all w o acc) ->
    (k, v) ∈ Plain.own acc \/ exists k0, w k0 = k /\ (k0, v) ∈ o.
Proof.
  unfold assign_all.
  induction o as [|[k1 v1] o IH]; intros acc k v Hwf Hin; [by left|].
  simpl in Hin. apply IH in Hin as [Hin|(k0 & Hk0 & Hin)];
    [|right; exists k0; split; [done|]; apply elem_of_cons; by right
     |by apply wf_assign].
  apply elem_assign in Hin as [Heq|Hin]; [|by left|done].
  simplify_eq. right. exists k1. split; [done|].
  apply elem_of_cons. by left.
Qed.

Lemma keys_assign_all_mono (w : string -> string) o :
  forall (acc : Plain.t) k,
    k ∈ Obj.keys (Plain.own acc) ->
    k ∈ Obj.keys (Plain.own (assign_all w o acc)).
Proof.
  unfold assign_all.
  induction o as [|[k1 v1] o IH]; intros acc k Hk; [done|].
  simpl. apply IH. by apply keys_assign_mono.
Qed.

Lemma key_assigned (w : string -> string) o :
  forall (acc : Plain.t) k0,
    k0 ∈ Obj.keys o -> w k0 <> "__proto__" ->
    w k0 ∈ Obj.keys (Plain.own (assign_all w o acc)).
Proof.
  induction o as [|[k1 v1] o IH]; intros acc k0 Hk0 Hw.
  - by apply elem_of_nil in Hk0.
  - unfold Obj.keys in Hk0. rewrite fmap_cons in Hk0.
    apply elem_of_cons in Hk0 as [->|Hk0].
    + unfold assign_all. simpl. fold (assign_all w o).
      apply keys_assign_all_mono. rewrite assign_ordinary by done.
      apply keys_set. by left.
    + unfold assign_all. simpl. fold (assign_all w o). by apply IH.
Qed.

(** The remapping invents nothing: every entry of the mapped outputs
    is the value of some entry of the outputs, under the name that
    entry is assigned to; it drops no name but [__proto__]: every entry
    of the outputs assigned to another name has that name among the
    keys of the mapped outputs; and the mapped outputs have at most as
    many entries as the outputs had. *)
Theorem mapOutputs_entries this outputs :
  Obj.wf outputs ->
  (forall k v, (k, v) ∈ Step.mapOutputs this outputs ->
     exists k0, target_of this k0 = k /\ (k0, v) ∈ outputs)
  /\ (forall k0, k0 ∈ Obj.keys outputs ->
        target_of this k0 <> "__proto__" ->
        target_of this k0 ∈ Obj.keys (Step.mapOutputs this outputs))
  /\ List.length (Step.mapOutputs this outputs) <= List.length outputs.
Proof.
  intros Hwf.
  assert (forall k v, (k, v) ∈ Step.mapOutputs this outputs ->
            exists k0, target_of this k0 = k /\ (k0, v) ∈ outputs) as Hfrom.
  { intros k v Hin. destruct (outputMap this) as [m|] eqn:E.
    - rewrite (mapOutputs_assigns this m) in Hin by done.
      rewrite (target_of_map this m) by done.
      apply elem_assign_all in Hin as [Hin|Hin];
        [by apply elem_of_nil in Hin | done | apply NoDup_nil_2].
    - unfold Step.mapOutputs in Hin. rewrite E in Hin.
      exists k. split; [|done]. unfold target_of. by rewrite E. }
  split; [done|]. split.
  - intros k0 Hk0 Hne. destruct (outputMap this) as [m|] eqn:E.
    + rewrite (mapOutputs_assigns this m) by done.
      rewrite (target_of_map this m) in * by done. by apply key_assigned.
    + unfold Step.mapOutputs, target_of. by rewrite E.
  - assert (Obj.keys (Step.mapOutputs this outputs)
              ⊆+ target_of this <$> Obj.keys outputs) as Hsub.
    { apply NoDup_submseteq; [by apply wf_mapOutputs|].
      intros k Hk. apply in_keys in Hk as [v Hin].
      apply Hfrom in Hin as (k0 & <- & Hin).
      apply list_elem_of_fmap_2. by eapply keys_in. }
    apply submseteq_length in Hsub. unfold Obj.keys in Hsub.
    by rewrite !length_fmap in Hsub.
Qed.

(** When nothing is assigned to [__proto__] and no two keys of the
    outputs are assigned to the same name, the remapping loses nothing:
    each value is read back under the name its key is assigned to, and
    there are as many entries after as before. *)
Theorem mapOutputs_without_collision this outputs :
  Obj.wf outputs ->
  no_proto_write this outputs ->
  (forall k k', k ∈ Obj.keys outputs -> k' ∈ Obj.keys outputs ->
     target_of this k = target_of this k' -> k = k') ->
  (forall k v, Obj.get k outputs = Some v ->
     Obj.get (target_of this k) (Step.mapOutputs this outputs) = Some v)
  /\ List.length (Step.mapOutputs this outputs) = List.length outputs.
Proof.
  intros Hwf Hw Hinj. split.
  - intros k v Hk. rewrite mapOutputs_target by done.
    destruct (outputMap this) as [m|] eqn:E.
    + rewrite get_spread_last, get_rename_unique, Hk; [done|done|].
      intros k' Hk' Heq. apply Hinj; [done| |done].
      apply get_Some_in in Hk. by eapply keys_in.
    + unfold target_of. by rewrite E.
  - assert (Obj.keys (Step.mapOutputs this outputs)
              ≡ₚ target_of this <$> Obj.keys outputs) as Hperm.
    { apply NoDup_Permutation.
      - by apply wf_mapOutputs.
      - by apply NoDup_fmap_2_strong.
      - intros k. by apply keys_mapOutputs. }
    apply Permutation_length in Hperm. unfold Obj.keys in Hperm.
    by rewrite !length_fmap in Hperm.
Qed.

(** When every key the outputs have is assigned to its own name (the
    map declares no non-empty target for it, and it names no member of
    [Object.prototype]), the remapping changes no read. *)
Theorem mapOutputs_nothing_to_rename this outputs :
  Obj.wf outputs ->
  no_proto_write this outputs ->
  (forall k, k ∈ Obj.keys outputs -> target_of this k = k) ->
  same_reads (Step.mapOutputs this outputs) outputs.
Proof.
  intros Hwf Hw Hid k. rewrite mapOutputs_target by done.
  destruct (outputMap this) as [m|]; [|done].
  rewrite (rename_ext _ id) by done.
  rewrite get_spread_last.
  pose proof (get_rename_unique id outputs k Hwf) as Hu.
  change (id k) with k in Hu. rewrite Hu by (by intros k' _).
  by destruct (Obj.get k outputs).
Qed.

End RemappingMore.

Lemma wf_two (k1 k2 : string) (v1 v2 : value) :
  k1 <> k2 -> Obj.wf [(k1, v1); (k2, v2)].
Proof.
  intros Hne. apply NoDup_cons_2.
  - apply not_elem_of_cons. split; [done | apply not_elem_of_nil].
  - apply (NoDup_singleton (A:=string)).
Defined.

Lemma wf_one (k : string) (v : value) : Obj.wf [(k, v)].
Proof. apply (NoDup_singleton (A:=string)). Defined.

(** A greeting and a mood, remapped with [{ greeting: "message" }]. *)
Lemma mapOutputs_entries_witness :
  List.length
    (Step.mapOutputs greet_message
       [("greeting", VStr "Hello, Ada"); ("mood", VStr "fine")]) <= 2.
Proof.
  refine (proj2 (proj2 (mapOutputs_entries greet_message
    [("greeting", VStr "Hello, Ada"); ("mood", VStr "fine")] _))).
  by apply wf_two.
Defined.

Lemma mapOutputs_without_collision_witness :
  Obj.get "message"
    (Step.mapOutputs greet_message
       [("greeting", VStr "Hello, Ada"); ("mood", VStr "fine")]) =
  Some (VStr "Hello, Ada").
Proof.
  refine (proj1 (mapOutputs_without_collision greet_message
    [("greeting", VStr "Hello, Ada"); ("mood", VStr "fine")] _ _ _)
    "greeting" (VStr "Hello, Ada") _).
  - by apply wf_two.
  - intros k Hk.
    apply elem_of_cons in Hk as [->|Hk];
      [|apply list_elem_of_singleton in Hk as ->]; vm_compute; discriminate.
  - intros k k' Hk Hk'.
    apply elem_of_cons in Hk as [->|Hk];
      [|apply list_elem_of_singleton in Hk as ->];
      (apply elem_of_cons in Hk' as [->|Hk'];
       [|apply list_elem_of_singleton in Hk' as ->]);
      vm_compute; congruence.
  - reflexivity.
Defined.

(** Outputs with no greeting, remapped with [{ greeting: "message" }]. *)
Lemma mapOutputs_nothing_to_rename_witness :
  Obj.get "mood" (Step.mapOutputs greet_message [("mood", VStr "fine")]) =
  Some (VStr "fine").
Proof.
  refine (mapOutputs_nothing_to_rename greet_message [("mood", VStr "fine")]
            _ _ _ "mood").
  - apply wf_one.
  - intros k Hk. apply list_elem_of_singleton in Hk as ->.
    vm_compute. discriminate.
  - intros k Hk. apply list_elem_of_singleton in Hk as ->. reflexivity.
Defined.

(** ** The ledger, further *)

Section LedgerMore.

Context {World : Type}.
Implicit Types (st : Machine World) (fields : obj).

Lemma same_reads_literal (o : obj) : Obj.wf o -> same_reads (Obj.spread [] o) o.
Proof. intros Hwf k. fold (Obj.literal o). by apply get_literal. Qed.

(** In either mode, and also when it throws, [recordCall] leaves the
    name, the output map, both schemas and the world as they were, and
    the trace it found is the beginning of the trace it leaves. *)
Theorem recordCall_keeps_config st fields (updatePrev : bool) :
  same_config (this (Step.recordCall fields updatePrev st).2) (this st)
  /\ world (Step.recordCall fields updatePrev st).2 = world st
  /\ log st `prefix_of` log (Step.recordCall fields updatePrev st).2.
Proof.
  destruct updatePrev.
  - destruct (snoc_or_nil (calls (this st))) as [Hnil|(init & prev & Hsnoc)].
    + by rewrite recordCall_update_nil.
    + rewrite (recordCall_update_snoc _ _ init prev) by done.
      cbn [snd this world log]. repeat split. by apply prefix_app_r.
  - rewrite recordCall_append. cbn [snd this world log].
    repeat split. by apply prefix_app_r.
Qed.

(** An append followed by an update, the way [run] records a call,
    never throws and leaves one record more than before: the merge of
    the two sets of fields, the later shadowing the earlier. *)
Theorem recordCall_append_then_update st (first second : obj) :
  Obj.wf first ->
  Obj.wf second ->
  (Step.recordCall second true (Step.recordCall first false st).2).1 =
    Return tt
  /\ exists call,
       calls (this (Step.recordCall second true
                      (Step.recordCall first false st).2).2) =
         calls (this st) ++ [call]
       /\ forall k, Obj.get k call =
                      match Obj.get k second with
                      | Some v => Some v
                      | None => Obj.get k first
                      end.
Proof.
  intros Hfirst Hsecond. rewrite recordCall_append.
  erewrite recordCall_update_snoc by reflexivity.
  cbn [fst snd this calls set_calls]. split; [done|].
  eexists. split; [reflexivity|]. intros k.
  rewrite get_spread by done. destruct (Obj.get k second); [done|].
  rewrite same_reads_literal by apply wf_literal.
  by apply same_reads_literal.
Qed.

(** Patching the last record twice with the same fields reads as
    patching it once, and patching it with no field at all changes no
    read of any record. *)
Theorem recordCall_update_idempotent st fields :
  Obj.wf fields ->
  Forall Obj.wf (calls (this st)) ->
  calls (this st) <> [] ->
  let once := (Step.recordCall fields true st).2 in
  let twice := (Step.recordCall fields true once).2 in
  Forall2 same_reads (calls (this twice)) (calls (this once))
  /\ Forall2 same_reads (calls (this (Step.recordCall [] true st).2))
       (calls (this st)).
Proof.
  intros Hfields Hwf Hne. cbv zeta.
  destruct (snoc_or_nil (calls (this st))) as [Hnil|(init & prev & Hsnoc)];
    [done|].
  assert (Obj.wf prev) as Hprev.
  { rewrite Hsnoc in Hwf. apply Forall_app in Hwf as [_ Hl]. by inversion Hl. }
  rewrite !(recordCall_update_snoc _ st init prev) by done.
  erewrite recordCall_update_snoc by reflexivity.
  cbn [snd this calls set_calls]. rewrite Hsnoc. split.
  - apply Forall2_app; [by apply Forall_Forall2_diag, Forall_true|].
    constructor; [|constructor]. intros k.
    rewrite (get_spread k _ fields) by done.
    destruct (Obj.get k fields) as [v|] eqn:E.
    + by rewrite get_spread, E.
    + by rewrite same_reads_literal by apply wf_spread, wf_literal.
  - apply Forall2_app; [by apply Forall_Forall2_diag, Forall_true|].
    constructor; [|constructor]. intros k. simpl.
    by apply same_reads_literal.
Qed.

End LedgerMore.

(** Recording a greeting by hand. *)
Lemma recordCall_append_then_update_witness :
  (Step.recordCall [("outputs", VObj [])] true
     (Step.recordCall [("inputs", VObj [])] false (start greet)).2).1 =
  Return tt.
Proof.
  refine (proj1 (recordCall_append_then_update (start greet)
                   [("inputs", VObj [])] [("outputs", VObj [])] _ _)).
  - apply wf_one.
  - apply wf_one.
Defined.

(** Patching the record of a greeting with a note, twice. *)
Lemma recordCall_update_idempotent_witness :
  Forall2 same_reads
    (calls (this (Step.recordCall [("note", VStr "checked")] true
       (Step.recordCall [("note", VStr "checked")] true
          (Step.run ada (start greet)).2).2).2))
    (calls (this (Step.recordCall [("note", VStr "checked")] true
       (Step.run ada (start greet)).2).2)).
Proof.
  refine (proj1 (recordCall_update_idempotent (Step.run ada (start greet)).2
                   [("note", VStr "checked")] _ _ _)).
  - apply wf_one.
  - apply Forall_singleton. by apply wf_two.
  - discriminate.
Defined.

(** ** Serialization, further *)

Section SerializeMore.

Context {World : Type} `{!Concrete World}.
Implicit Types (st : Machine World) (args : RunStepArgs).

Lemma Arr_get_last {A : Type} (a : list A) :
  Arr.get a (Arr.length a - 1) = last a.
Proof.
  destruct (snoc_or_nil a) as [->|(init & x & ->)]; [done|].
  by rewrite Arr_get_last_snoc, last_snoc.
Qed.

(** [serialize] never returns the empty structure, with or without
    calls on record: the snapshot always has the key [call]. *)
Theorem serialize_always_has_call st :
  exists snapshot,
    (Step.serialize st).1 = Return snapshot
    /\ Obj.has "call" snapshot = true
    /\ snapshot <> [].
Proof.
  rewrite serialize_unfold. cbn [fst]. eexists. split; [reflexivity|].
  assert (Obj.has "call"
            (Obj.spread
               (Obj.literal
                  [("call",
                    Step.value_of
                      (Arr.get (calls (this st))
                         (Arr.length (calls (this st)) - 1)))])
               (_serialize (this st) (world st))) = true) as Hhas
    by (by rewrite has_spread).
  split; [done|]. intros Heq. by rewrite Heq in Hhas.
Qed.

(** What the snapshot reads: under every key of the metadata, the
    metadata's value, the key [call] included, so that metadata with a
    key [call] hides the call record; under [call] otherwise, the last
    call record, or [undefined] when there is none; and nothing else. *)
Theorem serialize_reads st :
  Obj.wf (_serialize (this st) (world st)) ->
  exists snapshot,
    (Step.serialize st).1 = Return snapshot
    /\ Obj.get "call" snapshot =
       match Obj.get "call" (_serialize (this st) (world st)) with
       | Some v => Some v
       | None => Some (Step.value_of (last (calls (this st))))
       end
    /\ (forall k, k <> "call" ->
          Obj.get k snapshot = Obj.get k (_serialize (this st) (world st))).
Proof.
  intros Hwf. rewrite serialize_unfold, Arr_get_last. cbn [fst].
  eexists. split; [reflexivity|]. split.
  - rewrite get_spread by done.
    by destruct (Obj.get "call" (_serialize (this st) (world st))).
  - intros k Hk. rewrite get_spread by done.
    destruct (Obj.get k (_serialize (this st) (world st))); [done|].
    rewrite get_literal by apply wf_one. rewrite get_cons.
    by case_decide.
Qed.

(** [serialize] right after [run] shows the record of that invocation,
    when the metadata has no key [call]: with the inputs and the
    remapped outputs when [run] returned, with the inputs and no outputs
    when it threw. *)
Theorem serialize_after_run st args :
  let st1 := (Step.run args st).2 in
  Obj.wf (_serialize (this st1) (world st1)) ->
  Obj.get "call" (_serialize (this st1) (world st1)) = None ->
  exists snapshot call,
    (Step.serialize st1).1 = Return snapshot
    /\ Obj.get "call" snapshot = Some (VObj call)
    /\ Obj.get "inputs" call = Some (VObj (RunStepArgs.inputs args))
    /\ match _run (RunStepArgs.mk (RunStepArgs.steps args)
                     (RunStepArgs.inputs args)) (world st) with
       | (Return outputs, _) =>
           Obj.get "outputs" call =
             Some (VObj (Step.mapOutputs (this st) outputs))
       | (Throw _, _) => Obj.has "outputs" call = false
       end.
Proof.
  cbv zeta. rewrite run_unfold.
  destruct (_run _ (world st)) as [[outputs|e] w]; cbn [snd];
    intros Hwf Hnone; rewrite serialize_unfold;
    cbn [after_return after_throw this calls set_calls world fst] in *;
    rewrite Arr_get_last_snoc; eexists _, _;
    (split; [reflexivity|]);
    (split; [by rewrite get_spread, Hnone by done|]); by split.
Qed.

End SerializeMore.

(** The snapshot of [greet] after its first greeting. *)
Lemma serialize_reads_witness :
  exists snapshot,
    (Step.serialize (Step.run ada (start greet)).2).1 = Return snapshot
    /\ Obj.get "type" snapshot = Some (VStr "greet").
Proof.
  destruct (serialize_reads (Step.run ada (start greet)).2)
    as (snapshot & Hret & _ & Hmeta).
  - by apply wf_two.
  - exists snapshot. split; [exact Hret|].
    rewrite (Hmeta "type") by discriminate. reflexivity.
Defined.

(** The snapshot of [greet] after a greeting asked for without a name. *)
Lemma serialize_after_run_witness :
  exists snapshot call,
    (Step.serialize (Step.run nobody (start greet)).2).1 = Return snapshot
    /\ Obj.get "call" snapshot = Some (VObj call)
    /\ Obj.has "outputs" call = false.
Proof.
  destruct (serialize_after_run (start greet) nobody)
    as (snapshot & call & Hret & Hcall & _ & Hout).
  - by apply wf_two.
  - reflexivity.
  - exists snapshot, call. split; [exact Hret|]. split; [exact Hcall|].
    exact Hout.
Defined.

(** ** Configuration and validation *)

Section Configuration.

Context {World : Type} `{!Concrete World}.
Implicit Types (st : Machine World) (args : RunStepArgs).

(** The two setters commute: in either order they leave the same
    machine, with both schemas in place and the history untouched. *)
Theorem setters_commute st (a b : Schema) :
  (Step.outputs b (Step.inputs a st).2).2 =
    (Step.inputs a (Step.outputs b st).2).2
  /\ inputsSchema (this (Step.outputs b (Step.inputs a st).2).2) = Some a
  /\ outputsSchema (this (Step.outputs b (Step.inputs a st).2).2) = Some b
  /\ calls (this (Step.outputs b (Step.inputs a st).2).2) = calls (this st).
Proof. repeat split. Qed.

(** Each validation helper completes as the [parse] of its own schema
    does on the candidate: after [inputs(schema)], [validateInputs]
    returns or throws what [schema.parse] does, and likewise
    [validateOutputs] after [outputs(schema)]; with its schema unset a
    helper returns [undefined]; neither is affected by the other
    schema being set; both leave the step as it was; and the trace of
    [validateOutputs] carries the inputs schema. *)
Theorem validation_uses_own_schema st (schema : Schema) (candidate : value)
    (other : option Schema) :
  (Step.validateInputs candidate (Step.inputs schema st).2).1 =
    parse schema candidate
  /\ (Step.validateOutputs candidate (Step.outputs schema st).2).1 =
     parse schema candidate
  /\ (Step.validateInputs candidate (attach None other st)).1 =
     Return VUndefined
  /\ (Step.validateOutputs candidate (attach other None st)).1 =
     Return VUndefined
  /\ (Step.validateInputs candidate (Step.outputs schema st).2).1 =
     (Step.validateInputs candidate st).1
  /\ (Step.validateOutputs candidate (Step.inputs schema st).2).1 =
     (Step.validateOutputs candidate st).1
  /\ this (Step.validateInputs candidate st).2 = this st
  /\ this (Step.validateOutputs candidate st).2 = this st
  /\ log (Step.validateOutputs candidate st).2 =
     log st ++ [debug_validating candidate (inputsSchema (this st))].
Proof.
  unfold Step.validateInputs, Step.validateOutputs, Step.lift_completion,
    Step.inputs, Step.outputs,
    mbind, M_bind, bind, get_this, put_this, logger, mret, M_ret, ret.
  cbn [attach with_schemas set_inputsSchema set_outputsSchema this
       inputsSchema outputsSchema fst snd].
  repeat split;
    try (by destruct (inputsSchema (this st)));
    by destruct (outputsSchema (this st)).
Qed.

(** The merge [postprocess] returns is an object; merging the same
    outputs into it once more changes no read; with no outputs it reads
    as the inputs, and with no inputs as the outputs; and [postprocess]
    leaves the step as it was. *)
Theorem postprocess_merge_laws st (inputs outputs : obj) :
  Obj.wf inputs ->
  Obj.wf outputs ->
  exists result,
    (Step.postprocess inputs outputs st).1 = Return result
    /\ Obj.wf result
    /\ (exists again,
          (Step.postprocess result outputs st).1 = Return again
          /\ same_reads again result)
    /\ (exists alone,
          (Step.postprocess inputs [] st).1 = Return alone
          /\ same_reads alone inputs)
    /\ (exists alone,
          (Step.postprocess [] outputs st).1 = Return alone
          /\ same_reads alone outputs)
    /\ this (Step.postprocess inputs outputs st).2 = this st.
Proof.
  intros Hin Hout. eexists. split; [reflexivity|].
  assert (Obj.wf (Obj.spread (Obj.spread [] inputs) outputs)) as Hres
    by apply wf_spread, wf_literal.
  split; [done|]. split; [|split; [|split]].
  - eexists. split; [reflexivity|]. intros k.
    rewrite !(get_spread k _ outputs) by done.
    destruct (Obj.get k outputs) as [v|] eqn:E; [done|].
    rewrite same_reads_literal by done. by rewrite get_spread, E.
  - eexists. split; [reflexivity|]. by apply same_reads_literal.
  - eexists. split; [reflexivity|]. by apply same_reads_literal.
  - reflexivity.
Qed.

(** A step as constructed, whatever its name and output map: an update
    of its last call throws, and its first invocation, when the
    delegated computation returns, leaves a history of exactly the one
    completed record. *)
Theorem constructed_step_first_run (step_name : string)
    (map : option (gmap string string)) (w w' : World) (l : list LogEntry)
    args (fields outputs : obj) :
  let st := {| this := Step.constructor step_name map; world := w; log := l |} in
  _run (RunStepArgs.mk (RunStepArgs.steps args) (RunStepArgs.inputs args)) w =
    (Return outputs, w') ->
  (Step.recordCall fields true st).1 = Throw cannot_update
  /\ calls (this (Step.run args st).2) =
     [completed_call (RunStepArgs.inputs args)
        (Step.mapOutputs (Step.constructor step_name map) outputs)]
  /\ (Step.recordCall fields true (Step.run args st).2).1 = Return tt.
Proof.
  intros st Hrun. subst st. split; [reflexivity|].
  rewrite run_unfold. cbn [world]. rewrite Hrun.
  cbn [snd after_return this calls set_calls Step.constructor].
  split; [reflexivity|].
  by erewrite recordCall_update_snoc by (by rewrite app_nil_l).
Qed.

End Configuration.

Lemma postprocess_merge_laws_witness :
  exists result,
    (Step.postprocess [("name", VStr "Ada")] [("name", VStr "Grace")]
       (start greet)).1 = Return result
    /\ Obj.wf result.
Proof.
  destruct (postprocess_merge_laws (start greet) [("name", VStr "Ada")]
              [("name", VStr "Grace")]) as (result & Hret & Hwf & _).
  - apply wf_one.
  - apply wf_one.
  - exists result. split; [exact Hret | exact Hwf].
Defined.

Lemma constructed_step_first_run_witness :
  calls (this (Step.run ada (start greet_message)).2) =
  [completed_call [("name", VStr "Ada")] [("message", VStr "Hello, Ada")]].
Proof.
  refine (proj1 (proj2 (constructed_step_first_run "greet"
    (Some {[ "greeting" := "message" ]}) tt tt [] ada []
    [("greeting", VStr "Hello, Ada")] _))).
  reflexivity.
Defined.
